(** * Tic-tac-toe: game evaluation and move history

    A shallow embedding of the game logic of the React component [App]
    ([calculateWinner], the derived values [movesPlayed], [isDraw],
    [gameOver], [xIsNext], and the handlers [handlePlay], [handleReset],
    [handleUndo], [handleRedo], [jumpTo]).

    The repository carries two revisions of [App]:
    - [Classic]: tic_tac_toe_frontend/src/App.js, which stores [xIsNext] as a
      third piece of state, offers play / reset / undo, and lets undo through
      only while there is no winner;
    - [Nav]: the revision of App.js with the move list, [handleRedo] and
      [jumpTo] (the one the test 'supports move history navigation with
      undo/redo' exercises), which derives [xIsNext] from [step] and offers
      play / reset / undo / redo / jumpTo.
    [calculateWinner] and the derived values are literally the same in both
    and live in [Engine]; what the components [Cell] and [Board], the
    buttons and the move list make of a state lives in [View]. *)

From stdpp Require Import base tactics option list gmap strings pretty.
From Stdlib Require Import ZArith Lia.

Local Open Scope Z_scope.

(** ** JavaScript values and arrays, as far as the program uses them *)

Module Engine.

Inductive mark := X | O.

(** A square holds [null], ['X'] or ['O']; reading outside the array (or a
    hole left by an assignment beyond the end) gives [undefined]. *)
Inductive value := Null | Undefined | Str (m : mark).

#[global] Instance mark_eq_dec : EqDecision mark.
Proof. solve_decision. Defined.

#[global] Instance value_eq_dec : EqDecision value.
Proof. solve_decision. Defined.

(** [Boolean(v)], the truthiness the guards and [filter(Boolean)] use. *)
Definition truthy (v : value) : bool :=
  match v with
  | Str _ => true
  | Null | Undefined => false
  end.

(** [v === w] on these values. *)
Definition strict_eq (v w : value) : bool := bool_decide (v = w).

(** A JS array: its indexed elements, and the properties an assignment with a
    key that is no array index creates ([a[-1] = v] does not touch the
    elements or [length]).  Holes are written as [Undefined] elements: the
    program only reads them with [a[i]] and [filter(Boolean)], which cannot
    tell the difference.  Keys are integers, as every caller passes them. *)
Record jsarray := MkArray { elems : list value; props : gmap Z value }.

(** Array indices are the integers 0 .. 2^32 - 2; any other integer key,
    negative or from 2^32 - 1 on, names an ordinary property. *)
Definition indexLimit : Z := 4294967295.

(** [a[i]] for an integer [i]. *)
Definition aget (a : jsarray) (i : Z) : value :=
  if decide (0 ≤ i < indexLimit)
  then default Undefined (elems a !! Z.to_nat i)
  else default Undefined (props a !! i).

(** [a[i] = v] for an integer [i]: an index in range overwrites, an index
    past the end extends the array (with holes in between), and a key that is
    no index sets a property and leaves the elements alone. *)
Definition aset (a : jsarray) (i : Z) (v : value) : jsarray :=
  if decide (0 ≤ i < indexLimit) then
    let n := Z.to_nat i in
    if decide (n < length (elems a))%nat
    then MkArray (<[n := v]> (elems a)) (props a)
    else MkArray (elems a ++ replicate (n - length (elems a)) Undefined ++ [v])
                 (props a)
  else MkArray (elems a) (<[i := v]> (props a)).

(** [a.slice()]: a fresh array with the indexed elements only. *)
Definition slice (a : jsarray) : jsarray := MkArray (elems a) ∅.

(** [Array(9).fill(null)] *)
Definition emptyBoard : jsarray := MkArray (replicate 9 Null) ∅.

(** [a.filter(Boolean).length] *)
Definition countTruthy (a : jsarray) : nat :=
  length (filter (λ v, truthy v = true) (elems a)).

(** ** calculateWinner *)

Definition lines : list (Z * Z * Z) :=
  [ (0, 1, 2); (3, 4, 5); (6, 7, 8);
    (0, 3, 6); (1, 4, 7); (2, 5, 8);
    (0, 4, 8); (2, 4, 6) ].

Record result := MkResult { winner : value; line : list Z }.

(** The test of the loop body:
    [squares[a] && squares[a] === squares[b] && squares[a] === squares[c]]. *)
Definition lineTest (squares : jsarray) (l : Z * Z * Z) : bool :=
  let '(a, b, c) := l in
  truthy (aget squares a)
  && strict_eq (aget squares a) (aget squares b)
  && strict_eq (aget squares a) (aget squares c).

(** The [for] loop over [lines], from index [i] on: [ls] is [lines.slice(i)]. *)
Fixpoint scan (squares : jsarray) (ls : list (Z * Z * Z)) : result :=
  match ls with
  | [] => MkResult Null []
  | (a, b, c) :: rest =>
      if lineTest squares (a, b, c)
      then MkResult (aget squares a) [a; b; c]
      else scan squares rest
  end.

Definition calculateWinner (squares : jsarray) : result := scan squares lines.

(** ** The values [App] derives from the current squares *)

Definition movesPlayed (squares : jsarray) : nat := countTruthy squares.

(** [!winner && movesPlayed === 9] *)
Definition isDraw (squares : jsarray) : bool :=
  negb (truthy (winner (calculateWinner squares)))
  && bool_decide (movesPlayed squares = 9%nat).

(** [Boolean(winner) || isDraw] *)
Definition gameOver (squares : jsarray) : bool :=
  truthy (winner (calculateWinner squares)) || isDraw squares.

(** What the status line and the board show: the three-way choice of
    [statusText] ([winner ? ... : isDraw ? ... : Turn]) together with the
    [line] handed to [Board] as [winningLine]. *)
Inductive Status :=
  | InProgress (next : mark)
  | Won (m : mark) (l : list Z)
  | Draw.

#[global] Instance Status_eq_dec : EqDecision Status.
Proof. solve_decision. Defined.

Definition playerOf (xIsNext : bool) : mark := if xIsNext then X else O.

Definition status (squares : jsarray) (xIsNext : bool) : Status :=
  let r := calculateWinner squares in
  match winner r with
  | Str m => Won m (line r)
  | Null | Undefined =>
      if isDraw squares then Draw else InProgress (playerOf xIsNext)
  end.

(** Three cells of a line hold the same mark. *)
Definition three (squares : jsarray) (l : Z * Z * Z) (m : mark) : Prop :=
  aget squares l.1.1 = Str m ∧ aget squares l.1.2 = Str m
  ∧ aget squares l.2 = Str m.

(** A board as the game means it: nine indexed cells, each [null] or a mark,
    and no stray properties. *)
Definition isBoard (b : jsarray) : Prop :=
  length (elems b) = 9%nat ∧ props b = ∅
  ∧ ∀ v, v ∈ elems b → v ≠ Undefined.

End Engine.

(** ** The guard of [handlePlay] *)

Module Guard.
Import Engine.

(** [if (currentSquares[i] || winner) return;]  The operator [||] evaluates
    left to right and stops at the first truthy operand; [ignoredBy] records
    which operand made the handler return early.  The handler returns
    [undefined] on every path, so this is all a caller could ever learn. *)
Inductive Ignored := SquareTaken | HasWinner.

#[global] Instance Ignored_eq_dec : EqDecision Ignored.
Proof. solve_decision. Defined.

Definition ignoredBy (currentSquares : jsarray) (i : Z) : option Ignored :=
  if truthy (aget currentSquares i) then Some SquareTaken
  else if truthy (winner (calculateWinner currentSquares)) then Some HasWinner
  else None.

End Guard.

(** ** App.js with move history navigation *)

Module Nav.
Import Engine Guard.

(** [useState] cells of [App]. *)
Record State := MkState { history : list jsarray; step : nat }.

(** [useState([Array(9).fill(null)])], [useState(0)] *)
Definition initial : State := MkState [emptyBoard] 0.

(** [history[step]]; [None] stands for [undefined], on which the render
    throws in [calculateWinner] before any handler exists. *)
Definition currentSquares (s : State) : option jsarray :=
  history s !! step s.

(** [step % 2 === 0] *)
Definition xIsNext (s : State) : bool := (step s mod 2 =? 0)%nat.

(** A handler is a closure of a render that succeeded. *)
Definition rendered (s : State) (k : jsarray → State) : option State :=
  k <$> currentSquares s.

Definition handlePlay (i : Z) (s : State) : option State :=
  rendered s (λ squares,
    match ignoredBy squares i with
    | Some _ => s
    | None =>
        let next := aset (slice squares) i (Str (playerOf (xIsNext s))) in
        let truncated := take (step s + 1) (history s) in
        MkState (truncated ++ [next]) (step s + 1)
    end).

Definition handleReset (s : State) : option State :=
  rendered s (λ _, MkState [emptyBoard] 0).

Definition handleUndo (s : State) : option State :=
  rendered s (λ _,
    if (0 <? step s)%nat then MkState (history s) (step s - 1) else s).

(** [step < history.length - 1]; on [nat] the subtraction stops at 0, which
    reads the same as -1 here, [step] being at least 0. *)
Definition handleRedo (s : State) : option State :=
  rendered s (λ _,
    if (step s <? length (history s) - 1)%nat
    then MkState (history s) (step s + 1) else s).

Definition jumpTo (moveIndex : Z) (s : State) : option State :=
  rendered s (λ _,
    if (0 <=? moveIndex) && (moveIndex <? Z.of_nat (length (history s)))
    then MkState (history s) (Z.to_nat moveIndex) else s).

(** What the page shows for a state. *)
Definition currentStatus (s : State) : option Status :=
  (λ squares, status squares (xIsNext s)) <$> currentSquares s.

Inductive Action :=
  | Play (i : Z) | Reset | Undo | Redo | JumpTo (moveIndex : Z).

Definition handle (a : Action) (s : State) : option State :=
  match a with
  | Play i => handlePlay i s
  | Reset => handleReset s
  | Undo => handleUndo s
  | Redo => handleRedo s
  | JumpTo k => jumpTo k s
  end.

(** The actions the page can raise: [Board] renders the cells
    [Array.from({ length: 9 })], so [onPlay] is called with 0..8 only. *)
Definition wired (a : Action) : Prop :=
  match a with
  | Play i => 0 ≤ i < 9
  | _ => True
  end.

Inductive reachable : State → Prop :=
  | reach_initial : reachable initial
  | reach_step s a s' :
      reachable s → wired a → handle a s = Some s' → reachable s'.

Fixpoint run (acts : list Action) (s : State) : option State :=
  match acts with
  | [] => Some s
  | a :: rest => handle a s ≫= run rest
  end.

End Nav.

(** ** tic_tac_toe_frontend/src/App.js *)

Module Classic.
Import Engine Guard.

Record State :=
  MkState { history : list jsarray; step : nat; xIsNext : bool }.

Definition initial : State := MkState [emptyBoard] 0 true.

Definition currentSquares (s : State) : option jsarray :=
  history s !! step s.

Definition rendered (s : State) (k : jsarray → State) : option State :=
  k <$> currentSquares s.

Definition handlePlay (i : Z) (s : State) : option State :=
  rendered s (λ squares,
    match ignoredBy squares i with
    | Some _ => s
    | None =>
        let next := aset (slice squares) i (Str (playerOf (xIsNext s))) in
        let nextHistory := take (step s + 1) (history s) ++ [next] in
        MkState nextHistory (step s + 1) (negb (xIsNext s))
    end).

Definition handleReset (s : State) : option State :=
  rendered s (λ _, MkState [emptyBoard] 0 true).

(** [if (step > 0 && !winner)] *)
Definition handleUndo (s : State) : option State :=
  rendered s (λ squares,
    if (0 <? step s)%nat && negb (truthy (winner (calculateWinner squares)))
    then MkState (history s) (step s - 1) (negb (xIsNext s))
    else s).

Definition currentStatus (s : State) : option Status :=
  (λ squares, status squares (xIsNext s)) <$> currentSquares s.

Inductive Action := Play (i : Z) | Reset | Undo.

Definition handle (a : Action) (s : State) : option State :=
  match a with
  | Play i => handlePlay i s
  | Reset => handleReset s
  | Undo => handleUndo s
  end.

Definition wired (a : Action) : Prop :=
  match a with
  | Play i => 0 ≤ i < 9
  | _ => True
  end.

Inductive reachable : State → Prop :=
  | reach_initial : reachable initial
  | reach_step s a s' :
      reachable s → wired a → handle a s = Some s' → reachable s'.

Fixpoint run (acts : list Action) (s : State) : option State :=
  match acts with
  | [] => Some s
  | a :: rest => handle a s ≫= run rest
  end.

(** Forgetting the stored flag gives a state of the other revision. *)
Definition erase (s : State) : Nav.State := Nav.MkState (history s) (step s).

(** The stored flag agrees with the parity of [step]. *)
Definition inSync (s : State) : Prop := xIsNext s = Nav.xIsNext (erase s).

End Classic.

(** ** What the page renders: cells, board, buttons, move list *)

Module View.
Import Engine.

Definition markName (m : mark) : string :=
  match m with X => "X" | O => "O" end.

(** [`Cell ${index + 1}${value ? `, ${value}` : ''}`] *)
Definition cellLabel (index : Z) (v : value) : string :=
  "Cell " +:+ pretty (index + 1)
  +:+ match v with
      | Str m => ", " +:+ markName m
      | Null | Undefined => ""
      end.

(** What can happen to a cell: a pointer click, or a key pressed on it. *)
Inductive CellEvent := Click | KeyDown (key : string).

(** [e.key === 'Enter' || e.key === ' '] *)
Definition activates (key : string) : bool :=
  bool_decide (key = "Enter") || bool_decide (key = " ").

(** [Cell]: [onClick={disabled ? undefined : onClick}] and [handleKeyDown];
    [onClick] is the handler the board passes down, on a page state [St].
    ([e.preventDefault()] concerns the browser only and has no part in the
    state.) *)
Definition cellReact {St : Type} (disabled : bool)
    (onClick : St → option St) (e : CellEvent) (s : St) : option St :=
  match e with
  | Click => if disabled then Some s else onClick s
  | KeyDown key =>
      if disabled then Some s
      else if activates key then onClick s else Some s
  end.

(** The props [renderCell] hands to [Cell]. *)
Record CellProps := MkCell {
  cellIndex : Z; cellValue : value; cellWinning : bool; cellDisabled : bool
}.

(** The [aria-label] a [Cell] computes from its props. *)
Definition cellAriaLabel (c : CellProps) : string :=
  cellLabel (cellIndex c) (cellValue c).

(** [renderCell(i)]: [winningLine.includes(i)] and
    [!!squares[i] || gameOver]. *)
Definition renderCell (squares : jsarray) (winningLine : list Z)
    (gameOver : bool) (i : Z) : CellProps :=
  MkCell i (aget squares i) (bool_decide (i ∈ winningLine))
         (truthy (aget squares i) || gameOver).

(** [Array.from({ length: 9 }).map((_, i) => renderCell(i))] *)
Definition boardCells (squares : jsarray) (winningLine : list Z)
    (gameOver : bool) : list CellProps :=
  renderCell squares winningLine gameOver <$> seqZ 0 9.

(** The board as [App] renders it for the current squares. *)
Definition board (squares : jsarray) : list CellProps :=
  boardCells squares (line (calculateWinner squares)) (gameOver squares).

(** One entry of the move list. *)
Record MoveButton := MkMove {
  moveLabel : string; moveCurrent : bool; moveTarget : Z
}.

(** [history.map((s, move) => ...)]: the label, [move === step], and the
    index its [onClick] passes to [jumpTo]. *)
Definition moveList (s : Nav.State) : list MoveButton :=
  imap (λ move _,
          MkMove (if (move =? 0)%nat then "Go to start"
                  else "Go to move #" +:+ pretty move)
                 (move =? Nav.step s)%nat
                 (Z.of_nat move))
       (Nav.history s).

(** [disabled={step === 0}] on Undo, with history navigation. *)
Definition undoDisabled (s : Nav.State) : bool := (Nav.step s =? 0)%nat.

(** [disabled={step >= history.length - 1}] on Redo. *)
Definition redoDisabled (s : Nav.State) : bool :=
  (length (Nav.history s) - 1 <=? Nav.step s)%nat.

(** A cell event on the page with history navigation: the cell's props come
    from the render of [s], its [onClick] is [() => onPlay(i)]. *)
Definition cellEvent (i : Z) (e : CellEvent) (s : Nav.State)
    : option Nav.State :=
  match Nav.currentSquares s with
  | None => None
  | Some squares =>
      cellReact (cellDisabled
                   (renderCell squares (line (calculateWinner squares))
                               (gameOver squares) i))
                (Nav.handlePlay i) e s
  end.

(** The same on the page of tic_tac_toe_frontend/src/App.js. *)
Definition classicCellEvent (i : Z) (e : CellEvent) (s : Classic.State)
    : option Classic.State :=
  match Classic.currentSquares s with
  | None => None
  | Some squares =>
      cellReact (cellDisabled
                   (renderCell squares (line (calculateWinner squares))
                               (gameOver squares) i))
                (Classic.handlePlay i) e s
  end.

(** The number of cells holding the mark [m]. *)
Definition countMark (m : mark) (b : jsarray) : nat :=
  length (filter (λ v, v = Str m) (elems b)).

(** X and O exchanged, cell by cell. *)
Definition swapMark (m : mark) : mark := match m with X => O | O => X end.

Definition swapValue (v : value) : value :=
  match v with Str m => Str (swapMark m) | _ => v end.

Definition swapArray (a : jsarray) : jsarray :=
  MkArray (swapValue <$> elems a) (swapValue <$> props a).

End View.

(** ** The history invariant, on the two state cells both revisions share *)

Module Hist.
Import Engine.

(** [b'] is [b] with one empty cell [j] filled by [m]; nothing else moves. *)
Definition placed (b b' : jsarray) (j : nat) (m : mark) : Prop :=
  (j < 9)%nat
  ∧ elems b !! j = Some Null
  ∧ elems b' !! j = Some (Str m)
  ∧ ∀ c : nat, c ≠ j → elems b' !! c = elems b !! c.

(** The mark the move out of snapshot [i] places. *)
Definition markAt (i : nat) : mark := if Nat.even i then X else O.

Record Inv (history : list jsarray) (step : nat) : Prop := MkInv {
  inv_first : history !! 0%nat = Some emptyBoard;
  inv_cursor : (step < length history)%nat;
  inv_board : ∀ i b, history !! i = Some b → isBoard b;
  inv_moves : ∀ i b b',
      history !! i = Some b → history !! S i = Some b' →
      ∃ j, placed b b' j (markAt i);
}.

(** No snapshot but the last one shows a winner. *)
Definition winnerOnlyLast (history : list jsarray) : Prop :=
  ∀ k b, history !! k = Some b → (S k < length history)%nat →
         winner (calculateWinner b) = Null.

End Hist.

(** ** Positions and move sequences used below *)

Module Scenario.
Import Engine.

(** A position X can reach with the ninth move: column 0 and the diagonal
    2-4-6 are complete at the same time. *)
Definition twoLines : jsarray :=
  MkArray [Str X; Str O; Str X;
           Str X; Str X; Str O;
           Str X; Str O; Str O] ∅.

(** X,O,X / X,O,O / O,X,X *)
Definition drawnBoard : jsarray :=
  MkArray [Str X; Str O; Str X;
           Str X; Str O; Str O;
           Str O; Str X; Str X] ∅.

(** The plays by which App.js reaches [drawnBoard]. *)
Definition drawMoves : list Classic.Action :=
  [ Classic.Play 0; Classic.Play 1; Classic.Play 2; Classic.Play 4;
    Classic.Play 3; Classic.Play 5; Classic.Play 7; Classic.Play 6;
    Classic.Play 8 ].

Definition drawnState : Classic.State :=
  Eval vm_compute in
    default Classic.initial (Classic.run drawMoves Classic.initial).

Definition boardX0 : jsarray :=
  MkArray [Str X; Null; Null; Null; Null; Null; Null; Null; Null] ∅.

Definition boardX0O1 : jsarray :=
  MkArray [Str X; Str O; Null; Null; Null; Null; Null; Null; Null] ∅.

(** History [B0, B1, B2] with the cursor on [B1], after one undo. *)
Definition undone : Nav.State :=
  Nav.MkState [emptyBoard; boardX0; boardX0O1] 1.

(** Two moves, back to the start, forward again, and a move from the middle
    of the history. *)
Definition travelMoves : list Nav.Action :=
  [ Nav.Play 0; Nav.Play 4; Nav.JumpTo 0; Nav.Redo; Nav.Undo; Nav.Redo;
    Nav.Play 8 ].

Definition travelled : Nav.State :=
  Nav.MkState
    [ emptyBoard;
      boardX0;
      MkArray [Str X; Null; Null; Null; Null; Null; Null; Null; Str O] ∅ ]
    2.

(** X takes 0, 4 and 8; O takes 3 and 1. *)
Definition winMoves : list Classic.Action :=
  [ Classic.Play 0; Classic.Play 3; Classic.Play 4; Classic.Play 1;
    Classic.Play 8 ].

Definition beforeWin : Classic.State :=
  Eval vm_compute in
    default Classic.initial (Classic.run (take 4 winMoves) Classic.initial).

Definition afterWin : Classic.State :=
  Eval vm_compute in
    default Classic.initial (Classic.handlePlay 8 beforeWin).

(** X,O,_ / O,X,_ / _,_,X *)
Definition wonBoard : jsarray :=
  MkArray [Str X; Str O; Null; Str O; Str X; Null; Null; Null; Str X] ∅.

(** play(0), play(4), play(1), play(3), play(8) *)
Definition fivePlays : list Classic.Action :=
  [ Classic.Play 0; Classic.Play 4; Classic.Play 1; Classic.Play 3;
    Classic.Play 8 ].

Definition afterFivePlays : Classic.State :=
  Eval vm_compute in
    default Classic.initial (Classic.run fivePlays Classic.initial).

(** X,X,_ / O,O,_ / _,_,X *)
Definition fivePlaysBoard : jsarray :=
  MkArray [Str X; Str X; Null; Str O; Str O; Null; Null; Null; Str X] ∅.

(** The empty board with an X recorded under the key 4294967295, which is
    no array index. *)
Definition pastLimitBoard : jsarray :=
  MkArray (replicate 9 Null) {[ 4294967295 := Str X ]}.

(** The same two positions on the page with history navigation. *)
Definition navAfterWin : Nav.State := Classic.erase afterWin.

Definition navAfterFivePlays : Nav.State := Classic.erase afterFivePlays.

Definition navPlay (cells : list Z) : list Nav.Action := Nav.Play <$> cells.

End Scenario.

(** * Properties *)

(** ** calculateWinner and the derived status *)

Section EngineFacts.
Import Engine Scenario.

#[local] Arguments lineTest : simpl never.
#[local] Arguments aget : simpl never.

Lemma lineTest_three squares l :
  lineTest squares l = true ↔ ∃ m, three squares l m.
Proof.
  destruct l as [[a b] c]. unfold lineTest, three, strict_eq. simpl. split.
  - intros H. apply andb_prop in H as [H Hc]. apply andb_prop in H as [Ha Hb].
    apply bool_decide_eq_true in Hb, Hc.
    destruct (aget squares a) as [| |m] eqn:Ea; try discriminate.
    exists m. by rewrite <- Hb, <- Hc.
  - intros (m & Ha & Hb & Hc). rewrite Ha, Hb, Hc. simpl.
    by rewrite bool_decide_eq_true_2.
Qed.

Lemma lineTest_false squares l :
  lineTest squares l = false ↔ ∀ m, ¬ three squares l m.
Proof.
  split.
  - intros H m Hm. assert (lineTest squares l = true) as E
      by (apply lineTest_three; eauto). congruence.
  - intros H. destruct (lineTest squares l) eqn:E; [|done].
    apply lineTest_three in E as [m Hm]. by destruct (H m).
Qed.

(** The loop returns at the first index whose test succeeds. *)
Lemma scan_first squares ls k a b c :
  ls !! k = Some (a, b, c) →
  lineTest squares (a, b, c) = true →
  (∀ j l, (j < k)%nat → ls !! j = Some l → lineTest squares l = false) →
  scan squares ls = MkResult (aget squares a) [a; b; c].
Proof.
  revert k. induction ls as [|[[a' b'] c'] ls IH]; intros k Hk Ht Hbefore.
  - by rewrite lookup_nil in Hk.
  - destruct k as [|k]; simpl in *.
    + injection Hk as -> -> ->. by rewrite Ht.
    + rewrite (Hbefore 0%nat (a', b', c')) by (done || lia).
      apply (IH k); [done..|]. intros j l Hj Hl.
      apply (Hbefore (S j) l); [lia | done].
Qed.

(** The loop falls through when no test succeeds. *)
Lemma scan_none squares ls :
  (∀ l, l ∈ ls → lineTest squares l = false) →
  scan squares ls = MkResult Null [].
Proof.
  induction ls as [|[[a b] c] ls IH]; intros H; [done|]. simpl.
  rewrite (H (a, b, c)) by apply list_elem_of_here.
  apply IH. intros l Hl. apply H. by apply list_elem_of_further.
Qed.

(** Whatever the loop returns as winner is a mark or [null]. *)
Lemma scan_winner squares ls :
  winner (scan squares ls) = Null
  ∨ ∃ l m, l ∈ ls ∧ three squares l m
           ∧ scan squares ls = MkResult (Str m) [l.1.1; l.1.2; l.2].
Proof.
  induction ls as [|[[a b] c] ls IH]; [by left|]. simpl.
  destruct (lineTest squares (a, b, c)) eqn:E.
  - right. apply lineTest_three in E as [m Hm]. exists (a, b, c), m.
    split; [apply list_elem_of_here|]. split; [done|].
    destruct Hm as (Ha & _). simpl in Ha. by rewrite Ha.
  - destruct IH as [IH | (l & m & Hl & Hm & IH)]; [by left|].
    right. exists l, m. split; [by apply list_elem_of_further|]. done.
Qed.

Lemma no_line_no_winner squares :
  (∀ l m, l ∈ lines → ¬ three squares l m) →
  calculateWinner squares = MkResult Null [].
Proof.
  intros H. apply scan_none. intros l Hl. apply lineTest_false.
  intros m. by apply H.
Qed.

Lemma countTruthy_all (l : list value) :
  (∀ v, v ∈ l → ∃ m, v = Str m) →
  length (filter (λ v, truthy v = true) l) = length l.
Proof.
  induction l as [|v l IH]; intros H; [done|].
  destruct (H v) as [m ->]; [apply list_elem_of_here|].
  rewrite filter_cons_True by done. simpl. f_equal. apply IH.
  intros w Hw. apply H. by apply list_elem_of_further.
Qed.

Lemma filter_truthy_le (l : list value) :
  (length (filter (λ v, truthy v = true) l) ≤ length l)%nat.
Proof. apply length_filter. Qed.

(** C1: [calculateWinner] scans the lines in the order rows, columns,
    diagonal 0-4-8, diagonal 2-4-6 and returns the first line in that order
    whose three cells hold the same mark, with that mark: whenever the [k]-th
    line of that order is complete and no line before it is, the result is
    exactly that mark and that line (and the status is [Won] with them), no
    matter which later lines are complete as well. *)
Theorem calculateWinner_first_complete_line squares k a b c m :
  [ (0, 1, 2); (3, 4, 5); (6, 7, 8);
    (0, 3, 6); (1, 4, 7); (2, 5, 8);
    (0, 4, 8); (2, 4, 6) ] !! k = Some (a, b, c) →
  three squares (a, b, c) m →
  (∀ j l m', (j < k)%nat → lines !! j = Some l → ¬ three squares l m') →
  calculateWinner squares = MkResult (Str m) [a; b; c]
  ∧ ∀ xIsNext, status squares xIsNext = Won m [a; b; c].
Proof.
  intros Hk Hm Hbefore.
  assert (calculateWinner squares = MkResult (Str m) [a; b; c]) as E.
  { unfold calculateWinner. destruct Hm as (Ha & Hb & Hc); simpl in *.
    rewrite <- Ha. apply (scan_first squares lines k); [exact Hk| |].
    - apply lineTest_three. exists m. by repeat split.
    - intros j l Hj Hl. apply lineTest_false. intros m'. by eapply Hbefore. }
  split; [exact E|]. intros x. unfold status. by rewrite E.
Qed.

Lemma calculateWinner_first_complete_line_witness :
  three twoLines (2, 4, 6) X
  ∧ calculateWinner twoLines = MkResult (Str X) [0; 3; 6]
  ∧ ∀ xIsNext, status twoLines xIsNext = Won X [0; 3; 6].
Proof.
  split; [by repeat split|].
  apply (calculateWinner_first_complete_line twoLines 3 0 3 6 X).
  - reflexivity.
  - by repeat split.
  - intros j l m' Hj Hl (H1 & H2 & H3).
    destruct j as [|[|[|j]]]; [| | |lia]; simpl in Hl;
      injection Hl as <-; simpl in *; destruct m'; discriminate.
Defined.

(** C2: a board whose nine cells all hold a mark and on which no line is
    complete is a draw: [isDraw] is true and the status is [Draw]. *)
Theorem full_board_without_line_is_draw squares xIsNext :
  length (elems squares) = 9%nat →
  (∀ v, v ∈ elems squares → ∃ m, v = Str m) →
  (∀ l m, l ∈ lines → ¬ three squares l m) →
  isDraw squares = true ∧ status squares xIsNext = Draw.
Proof.
  intros Hlen Hfull Hno.
  assert (isDraw squares = true) as E.
  { unfold isDraw, movesPlayed, countTruthy.
    rewrite (no_line_no_winner squares Hno). simpl.
    apply bool_decide_eq_true_2. by rewrite countTruthy_all. }
  split; [exact E|]. unfold status.
  by rewrite (no_line_no_winner squares Hno), E.
Qed.

Lemma full_board_without_line_is_draw_witness :
  isDraw drawnBoard = true ∧ status drawnBoard false = Draw.
Proof.
  apply (full_board_without_line_is_draw drawnBoard false).
  - reflexivity.
  - intros v Hv. cbn in Hv. repeat (apply elem_of_cons in Hv as [->|Hv]; [eauto|]).
    by apply elem_of_nil in Hv.
  - intros l m Hl (H1 & H2 & H3). cbn in Hl.
    repeat (apply elem_of_cons in Hl as [->|Hl];
            [simpl in *; destruct m; discriminate|]).
    by apply elem_of_nil in Hl.
Defined.

End EngineFacts.

(** ** Boards, moves and the history invariant *)

Section HistFacts.
Import Engine Guard Hist.

#[local] Arguments aget : simpl never.

Lemma parity_succ n : (S n mod 2 =? 0)%nat = negb (n mod 2 =? 0)%nat.
Proof.
  pose proof (Nat.div_mod_eq n 2). pose proof (Nat.div_mod_eq (S n) 2).
  pose proof (Nat.mod_upper_bound n 2).
  pose proof (Nat.mod_upper_bound (S n) 2).
  destruct (Nat.eqb_spec (S n mod 2) 0), (Nat.eqb_spec (n mod 2) 0);
    simpl; try reflexivity; exfalso; lia.
Qed.

Lemma even_mod2 n : Nat.even n = (n mod 2 =? 0)%nat.
Proof.
  induction n as [|n IH]; [done|].
  by rewrite parity_succ, <- IH, Nat.even_succ, <- Nat.negb_even.
Qed.

Lemma playerOf_parity n : playerOf (n mod 2 =? 0)%nat = markAt n.
Proof. unfold markAt. by rewrite even_mod2. Qed.

Lemma isBoard_emptyBoard : isBoard emptyBoard.
Proof.
  split; [done|]. split; [done|]. intros v Hv.
  apply elem_of_replicate_inv in Hv. by subst.
Qed.

(** On a board, [b[i]] for [i] in 0..8 is the [i]-th element. *)
Lemma board_cell b i :
  isBoard b → 0 ≤ i < 9 →
  ∃ v, elems b !! Z.to_nat i = Some v ∧ aget b i = v ∧ v ≠ Undefined.
Proof.
  intros (Hlen & _ & Hdef) Hi.
  destruct (lookup_lt_is_Some_2 (elems b) (Z.to_nat i)) as [v Hv]; [lia|].
  exists v. split; [done|]. split.
  - unfold aget. rewrite decide_True by (unfold indexLimit; lia). by rewrite Hv.
  - apply Hdef. apply list_elem_of_lookup. eauto.
Qed.

Lemma board_cell_falsy b i :
  isBoard b → 0 ≤ i < 9 → truthy (aget b i) = false →
  elems b !! Z.to_nat i = Some Null ∧ aget b i = Null.
Proof.
  intros Hb Hi Ht. destruct (board_cell b i Hb Hi) as (v & Hv & Hg & Hd).
  rewrite Hg in *. destruct v; done.
Qed.

(** [next = currentSquares.slice(); next[i] = mark] on an empty cell of a
    board gives a board again, one move further. *)
Lemma play_placed b i m :
  isBoard b → 0 ≤ i < 9 → truthy (aget b i) = false →
  isBoard (aset (slice b) i (Str m))
  ∧ placed b (aset (slice b) i (Str m)) (Z.to_nat i) m.
Proof.
  intros Hb Hi Ht. destruct (board_cell_falsy b i Hb Hi Ht) as [Hnull _].
  destruct Hb as (Hlen & Hprops & Hdef).
  unfold aset, slice. simpl. rewrite decide_True by (unfold indexLimit; lia).
  rewrite decide_True by lia. split.
  - unfold isBoard. simpl. split; [by rewrite length_insert|].
    split; [done|]. intros v Hv. apply list_elem_of_lookup in Hv as [k Hk].
    apply list_lookup_insert_Some in Hk as [(_ & <- & _) | (_ & Hk)]; [done|].
    apply Hdef. apply list_elem_of_lookup. eauto.
  - unfold placed. simpl. split; [lia|]. split; [done|]. split.
    + apply list_lookup_insert_eq. lia.
    + intros c Hc. by apply list_lookup_insert_ne.
Qed.

Lemma ignoredBy_None squares i :
  ignoredBy squares i = None ↔
  truthy (aget squares i) = false
  ∧ truthy (winner (calculateWinner squares)) = false.
Proof.
  unfold ignoredBy.
  destruct (truthy (aget squares i)),
    (truthy (winner (calculateWinner squares)));
    split; try done; intros [? ?]; done.
Qed.

Lemma count_insert (l : list value) j m :
  l !! j = Some Null →
  length (filter (λ v, truthy v = true) (<[j := Str m]> l))
  = S (length (filter (λ v, truthy v = true) l)).
Proof.
  revert j. induction l as [|v l IH]; intros j Hj; [done|].
  destruct j as [|j]; simpl in Hj.
  - injection Hj as ->. change (<[0%nat := Str m]> (Null :: l)) with (Str m :: l).
    rewrite filter_cons_True by done.
    by rewrite filter_cons_False by done.
  - change (<[S j := Str m]> (v :: l)) with (v :: <[j := Str m]> l).
    rewrite !filter_cons. case_decide; simpl; by rewrite (IH j Hj).
Qed.

Lemma placed_elems b b' j m :
  isBoard b → isBoard b' → placed b b' j m →
  elems b' = <[j := Str m]> (elems b).
Proof.
  intros (Hlen & _) (Hlen' & _) (Hj & Hnull & Hmark & Hrest).
  apply list_eq. intros c. destruct (decide (c = j)) as [->|Hne].
  - rewrite list_lookup_insert_eq by lia. done.
  - rewrite list_lookup_insert_ne by done. by apply Hrest.
Qed.

Lemma placed_count b b' j m :
  isBoard b → isBoard b' → placed b b' j m →
  countTruthy b' = S (countTruthy b).
Proof.
  intros Hb Hb' Hp. unfold countTruthy.
  rewrite (placed_elems b b' j m Hb Hb' Hp).
  apply count_insert. by destruct Hp as (_ & ? & _).
Qed.

(** The history [history.slice(0, step + 1).concat([next])], read by index. *)
Lemma lookup_truncated (h : list jsarray) st next k :
  (st < length h)%nat →
  (take (st + 1) h ++ [next]) !! k =
    if decide (k ≤ st)%nat then h !! k
    else if decide (k = st + 1)%nat then Some next else None.
Proof.
  intros Hst.
  assert (length (take (st + 1) h) = (st + 1)%nat) as Hlen
    by (rewrite length_take_le; lia).
  repeat case_decide.
  - rewrite lookup_app_l by lia. apply lookup_take_lt. lia.
  - subst k. rewrite lookup_app_r by lia. rewrite Hlen.
    by replace (st + 1 - (st + 1))%nat with 0%nat by lia.
  - apply lookup_ge_None_2. rewrite length_app, Hlen. simpl. lia.
Qed.

Lemma Inv_initial : Inv [emptyBoard] 0.
Proof.
  split.
  - done.
  - simpl. lia.
  - intros [|i] b Hb; simpl in Hb; [|by rewrite lookup_nil in Hb].
    injection Hb as <-. apply isBoard_emptyBoard.
  - intros i b b' _ Hb'. apply lookup_lt_Some in Hb'. simpl in Hb'. lia.
Qed.

(** Moving the cursor inside the history keeps the invariant. *)
Lemma Inv_move h st k : Inv h st → (k < length h)%nat → Inv h k.
Proof. intros [Hf Hc Hb Hm] Hk. by split. Qed.

(** An accepted move on one of the nine cells keeps the invariant. *)
Lemma Inv_play h st squares i :
  Inv h st → h !! st = Some squares → 0 ≤ i < 9 →
  ignoredBy squares i = None →
  Inv (take (st + 1) h ++ [aset (slice squares) i (Str (markAt st))])
      (st + 1).
Proof.
  intros [Hf Hc Hb Hm] Hsq Hi Hg.
  apply ignoredBy_None in Hg as [Hcell _].
  pose proof (Hb _ _ Hsq) as Hboard.
  destruct (play_placed squares i (markAt st) Hboard Hi Hcell) as [Hb' Hp].
  split.
  - rewrite lookup_truncated by done. rewrite decide_True by lia. done.
  - rewrite length_app, length_take_le by lia. simpl. lia.
  - intros k b. rewrite lookup_truncated by done.
    repeat case_decide; intros Hk; simplify_eq; eauto.
  - intros k b b'. rewrite !lookup_truncated by done.
    repeat case_decide; intros Hk Hk'; simplify_eq; try lia; eauto.
    assert (k = st) as -> by lia. rewrite Hsq in Hk. injection Hk as <-.
    eauto.
Qed.

(** Under the invariant the [k]-th snapshot holds exactly [k] marks. *)
Lemma Inv_count h st : Inv h st → ∀ k b, h !! k = Some b → countTruthy b = k.
Proof.
  intros [Hf Hc Hb Hm]. induction k as [|k IH]; intros b Hk.
  - rewrite Hf in Hk. by injection Hk as <-.
  - destruct (lookup_lt_is_Some_2 h k) as [b0 Hb0].
    { apply lookup_lt_Some in Hk. lia. }
    destruct (Hm k b0 b Hb0 Hk) as [j Hp].
    rewrite (placed_count b0 b j (markAt k)); eauto.
Qed.

Lemma filter_truthy_lt (l : list value) v :
  v ∈ l → truthy v = false →
  (length (filter (λ v, truthy v = true) l) < length l)%nat.
Proof.
  intros Hv Ht. induction l as [|w l IH]; [by apply elem_of_nil in Hv|].
  apply elem_of_cons in Hv as [<-|Hv].
  - rewrite filter_cons_False by (rewrite Ht; done). simpl.
    pose proof (filter_truthy_le l). lia.
  - rewrite filter_cons. case_decide; simpl; specialize (IH Hv); lia.
Qed.

End HistFacts.

(** ** The revision with history navigation: reachable states *)

Section NavFacts.
Import Engine Guard Hist Nav.

#[local] Arguments aget : simpl never.
#[local] Arguments Nat.modulo : simpl never.

(** The two ways [handlePlay] ends. *)
Lemma handlePlay_cases i s s' :
  handlePlay i s = Some s' →
  ∃ squares, currentSquares s = Some squares
    ∧ ((is_Some (ignoredBy squares i) ∧ s' = s)
       ∨ (ignoredBy squares i = None
          ∧ s' = MkState (take (step s + 1) (history s)
                          ++ [aset (slice squares) i (Str (markAt (step s)))])
                         (step s + 1))).
Proof.
  unfold handlePlay, rendered. destruct (currentSquares s) as [squares|]; [|done].
  simpl. intros H. exists squares. split; [done|].
  destruct (ignoredBy squares i) eqn:E.
  - left. split; [eauto|congruence].
  - right. split; [done|]. unfold xIsNext in H. rewrite playerOf_parity in H.
    congruence.
Qed.

Lemma handle_Inv a s s' :
  wired a → handle a s = Some s' →
  Inv (history s) (step s) → Inv (history s') (step s').
Proof.
  intros Hw Hh HI. destruct a as [i| | | |k]; simpl in Hh.
  - apply handlePlay_cases in Hh as (squares & Hsq & [[_ ->] | [Hg ->]]);
      [done|]. simpl. by apply Inv_play.
  - unfold handleReset, rendered in Hh.
    destruct (currentSquares s); [|done]. injection Hh as <-.
    apply Inv_initial.
  - unfold handleUndo, rendered in Hh.
    destruct (currentSquares s); [|done]. simpl in Hh.
    destruct (Nat.ltb_spec 0 (step s)); injection Hh as <-; [|done].
    simpl. apply (Inv_move _ (step s)); [done|].
    pose proof (inv_cursor _ _ HI). lia.
  - unfold handleRedo, rendered in Hh.
    destruct (currentSquares s); [|done]. simpl in Hh.
    destruct (Nat.ltb_spec (step s) (length (history s) - 1));
      injection Hh as <-; [|done].
    simpl. apply (Inv_move _ (step s)); [done|lia].
  - unfold jumpTo, rendered in Hh.
    destruct (currentSquares s); [|done]. simpl in Hh.
    destruct (Z.leb_spec 0 k), (Z.ltb_spec k (Z.of_nat (length (history s))));
      injection Hh as <-; try done.
    simpl. apply (Inv_move _ (step s)); [done|lia].
Qed.

Lemma reachable_Inv s : reachable s → Inv (history s) (step s).
Proof.
  induction 1 as [|s a s' _ IH Hw Hh]; [apply Inv_initial|].
  by apply (handle_Inv a s s').
Qed.

(** Every reachable state renders: [history[step]] is a board. *)
Lemma reachable_renders s :
  reachable s → ∃ squares, currentSquares s = Some squares ∧ isBoard squares.
Proof.
  intros Hr. pose proof (reachable_Inv s Hr) as HI.
  destruct (lookup_lt_is_Some_2 (history s) (step s)) as [squares Hsq];
    [apply (inv_cursor _ _ HI)|].
  exists squares. split; [done|]. by apply (inv_board _ _ HI (step s)).
Qed.

Lemma run_reachable acts s s' :
  Forall wired acts → run acts s = Some s' → reachable s → reachable s'.
Proof.
  revert s. induction acts as [|a acts IH]; intros s Hw Hrun Hr; simpl in Hrun.
  - by injection Hrun as <-.
  - apply Forall_cons in Hw as [Hwa Hw].
    destruct (handle a s) as [s1|] eqn:E; [|done]. simpl in Hrun.
    apply (IH s1); [done..|]. by apply (reach_step s a s1).
Qed.

End NavFacts.

(** ** App.js simulated by the revision with history navigation *)

Section ClassicFacts.
Import Engine Guard Hist.

#[local] Arguments aget : simpl never.
#[local] Arguments Nat.modulo : simpl never.

Lemma Classic_handlePlay_cases i s s' :
  Classic.handlePlay i s = Some s' →
  ∃ squares, Classic.currentSquares s = Some squares
    ∧ ((is_Some (ignoredBy squares i) ∧ s' = s)
       ∨ (ignoredBy squares i = None
          ∧ s' = Classic.MkState
                   (take (Classic.step s + 1) (Classic.history s)
                    ++ [aset (slice squares) i
                          (Str (playerOf (Classic.xIsNext s)))])
                   (Classic.step s + 1) (negb (Classic.xIsNext s)))).
Proof.
  unfold Classic.handlePlay, Classic.rendered.
  destruct (Classic.currentSquares s) as [squares|]; [|done].
  simpl. intros H. exists squares. split; [done|].
  destruct (ignoredBy squares i) eqn:E.
  - left. split; [eauto|congruence].
  - right. split; [done|]. congruence.
Qed.

Lemma Classic_handle_sim a s s' :
  Classic.wired a → Classic.handle a s = Some s' →
  Nav.reachable (Classic.erase s) → Classic.inSync s →
  Nav.reachable (Classic.erase s') ∧ Classic.inSync s'.
Proof.
  intros Hw Hh Hr Hs. unfold Classic.inSync, Nav.xIsNext in *. simpl in *.
  destruct a as [i| |]; simpl in Hh.
  - apply Classic_handlePlay_cases in Hh
      as (squares & Hsq & [[_ ->] | [Hg ->]]); [done|]. simpl. split.
    + apply (Nav.reach_step (Classic.erase s) (Nav.Play i)); [done..|].
      simpl. unfold Nav.handlePlay, Nav.rendered, Nav.currentSquares.
      simpl. unfold Classic.currentSquares in Hsq. rewrite Hsq. simpl.
      rewrite Hg. unfold Nav.xIsNext. simpl. by rewrite Hs.
    + rewrite Hs. replace (Classic.step s + 1)%nat with (S (Classic.step s))
        by lia. by rewrite parity_succ.
  - unfold Classic.handleReset, Classic.rendered in Hh.
    destruct (Classic.currentSquares s); [|done]. injection Hh as <-.
    split; [apply Nav.reach_initial | done].
  - unfold Classic.handleUndo, Classic.rendered in Hh.
    destruct (Classic.currentSquares s) as [squares|] eqn:Hsq; [|done].
    simpl in Hh.
    destruct (Nat.ltb_spec 0 (Classic.step s)) as [Hpos|]; simpl in Hh;
      [|by injection Hh as <-].
    destruct (truthy (winner (calculateWinner squares))); simpl in Hh;
      injection Hh as <-; [done|]. simpl. split.
    + apply (Nav.reach_step (Classic.erase s) Nav.Undo); [done..|].
      simpl. unfold Nav.handleUndo, Nav.rendered, Nav.currentSquares.
      simpl. unfold Classic.currentSquares in Hsq. rewrite Hsq. simpl.
      destruct (Nat.ltb_spec 0 (Classic.step s)); [done|lia].
    + destruct (Classic.step s) as [|n]; [lia|].
      replace (S n - 1)%nat with n by lia.
      rewrite parity_succ in Hs. rewrite Hs. by rewrite negb_involutive.
Qed.

Lemma Classic_reachable_sim s :
  Classic.reachable s → Nav.reachable (Classic.erase s) ∧ Classic.inSync s.
Proof.
  induction 1 as [|s a s' _ [IHr IHs] Hw Hh].
  - split; [apply Nav.reach_initial | done].
  - by apply (Classic_handle_sim a s s').
Qed.

Lemma Classic_reachable_Inv s :
  Classic.reachable s → Inv (Classic.history s) (Classic.step s).
Proof.
  intros Hr. apply Classic_reachable_sim in Hr as [Hr _].
  apply (reachable_Inv _ Hr).
Qed.

Lemma Classic_reachable_renders s :
  Classic.reachable s →
  ∃ squares, Classic.currentSquares s = Some squares ∧ isBoard squares.
Proof.
  intros Hr. apply Classic_reachable_sim in Hr as [Hr _].
  apply (reachable_renders _ Hr).
Qed.

Lemma Classic_flag_parity s :
  Classic.reachable s → playerOf (Classic.xIsNext s) = markAt (Classic.step s).
Proof.
  intros Hr. apply Classic_reachable_sim in Hr as [_ Hs].
  rewrite Hs. apply playerOf_parity.
Qed.

Lemma Classic_run_reachable acts s s' :
  Forall Classic.wired acts → Classic.run acts s = Some s' →
  Classic.reachable s → Classic.reachable s'.
Proof.
  revert s. induction acts as [|a acts IH]; intros s Hw Hrun Hr; simpl in Hrun.
  - by injection Hrun as <-.
  - apply Forall_cons in Hw as [Hwa Hw].
    destruct (Classic.handle a s) as [s1|] eqn:E; [|done]. simpl in Hrun.
    apply (IH s1); [done..|]. by apply (Classic.reach_step s a s1).
Qed.

End ClassicFacts.

(** ** Status of a board *)

Section StatusFacts.
Import Engine Guard Hist.

#[local] Arguments aget : simpl never.
#[local] Arguments Nat.modulo : simpl never.

Lemma winner_truthy squares :
  truthy (winner (calculateWinner squares)) = true →
  ∃ l m, l ∈ lines ∧ three squares l m
         ∧ calculateWinner squares = MkResult (Str m) [l.1.1; l.1.2; l.2].
Proof.
  intros Ht. unfold calculateWinner in *.
  destruct (scan_winner squares lines) as [E | H]; [by rewrite E in Ht | done].
Qed.

Lemma status_Won squares x m l :
  status squares x = Won m l ↔ calculateWinner squares = MkResult (Str m) l.
Proof.
  unfold status. destruct (calculateWinner squares) as [w ln]. simpl. split.
  - destruct w; [destruct (isDraw squares)| destruct (isDraw squares)|];
      intros H; try discriminate. by injection H as -> ->.
  - intros H. by injection H as -> ->.
Qed.

Lemma status_Draw squares x :
  status squares x = Draw ↔ isDraw squares = true.
Proof.
  unfold status, isDraw.
  destruct (winner (calculateWinner squares)) eqn:E; simpl.
  - destruct (bool_decide (movesPlayed squares = 9%nat)); naive_solver.
  - destruct (bool_decide (movesPlayed squares = 9%nat)); naive_solver.
  - naive_solver.
Qed.

(** A board with nine truthy entries has no empty cell. *)
Lemma draw_all_taken squares i :
  isBoard squares → isDraw squares = true → 0 ≤ i < 9 →
  truthy (aget squares i) = true.
Proof.
  intros Hb Hd Hi. unfold isDraw in Hd. apply andb_prop in Hd as [_ Hd].
  apply bool_decide_eq_true in Hd. unfold movesPlayed, countTruthy in Hd.
  destruct (board_cell squares i Hb Hi) as (v & Hv & Hg & _).
  destruct (truthy (aget squares i)) eqn:E; [done|]. rewrite Hg in E.
  assert (v ∈ elems squares) as Hin by (apply list_elem_of_lookup; eauto).
  pose proof (filter_truthy_lt _ v Hin E). destruct Hb as (Hlen & _). lia.
Qed.

(** A board with an empty cell and no complete line is in progress. *)
Lemma status_in_progress squares x i :
  isBoard squares → 0 ≤ i < 9 → aget squares i = Null →
  (∀ l m, l ∈ lines → ¬ three squares l m) →
  status squares x = InProgress (playerOf x).
Proof.
  intros Hb Hi Hnull Hno. unfold status.
  rewrite (no_line_no_winner squares Hno). simpl.
  destruct (isDraw squares) eqn:E; [|done].
  pose proof (draw_all_taken squares i Hb E Hi) as Ht.
  by rewrite Hnull in Ht.
Qed.

Lemma aget_lookup b (n : nat) v :
  (n < 9)%nat → elems b !! n = Some v → aget b (Z.of_nat n) = v.
Proof.
  intros Hn H. unfold aget. rewrite decide_True by (unfold indexLimit; lia).
  by rewrite Nat2Z.id, H.
Qed.

End StatusFacts.

(** ** Turn order *)

Section TurnFacts.
Import Engine Guard Hist.

#[local] Arguments aget : simpl never.
#[local] Arguments Nat.modulo : simpl never.

(** The same fact for the revision that derives [xIsNext] from [step]. *)
Lemma Nav_next_mark_by_parity s squares :
  Nav.reachable s → Nav.currentSquares s = Some squares →
  (∃ i, 0 ≤ i < 9 ∧ aget squares i = Null) →
  (∀ l m, l ∈ lines → ¬ three squares l m) →
  Nav.currentStatus s = Some (InProgress (markAt (movesPlayed squares)))
  ∧ ∀ i, 0 ≤ i < 9 → aget squares i = Null →
      ∃ s' squares',
        Nav.handlePlay i s = Some s'
        ∧ Nav.currentSquares s' = Some squares'
        ∧ aget squares' i = Str (markAt (movesPlayed squares)).
Proof.
  intros Hr Hsq (i0 & Hi0 & Hnull0) Hno.
  pose proof (reachable_Inv s Hr) as HI.
  pose proof (inv_board _ _ HI _ _ Hsq) as Hb.
  pose proof (Inv_count _ _ HI _ _ Hsq) as Hcount.
  unfold movesPlayed. rewrite Hcount. split.
  - unfold Nav.currentStatus. rewrite Hsq. simpl. f_equal.
    rewrite (status_in_progress squares _ i0) by done.
    unfold Nav.xIsNext. by rewrite playerOf_parity.
  - intros i Hi Hnull.
    assert (ignoredBy squares i = None) as Hg.
    { apply ignoredBy_None. rewrite Hnull.
      by rewrite (no_line_no_winner squares Hno). }
    assert (truthy (aget squares i) = false) as Hf by by rewrite Hnull.
    destruct (play_placed squares i (markAt (Nav.step s)) Hb Hi Hf)
      as [_ (_ & _ & Hmark & _)].
    eexists _, _. split; [|split].
    + unfold Nav.handlePlay, Nav.rendered. rewrite Hsq. simpl. rewrite Hg.
      unfold Nav.xIsNext. rewrite playerOf_parity. reflexivity.
    + unfold Nav.currentSquares. simpl.
      rewrite lookup_truncated by apply (inv_cursor _ _ HI).
      rewrite decide_False by lia. rewrite decide_True by lia. reflexivity.
    + apply aget_lookup in Hmark; [|lia]. by rewrite Z2Nat.id in Hmark by lia.
Qed.

(** C3: in every reachable state of App.js whose current board has an empty
    cell and no complete line, the status is [InProgress next] where [next]
    is X when the number of marks on that board is even and O when it is
    odd; and a play on any empty cell puts exactly that mark there, so the
    stored flag [xIsNext] never drifts from the board. *)
Theorem next_mark_by_parity s squares :
  Classic.reachable s → Classic.currentSquares s = Some squares →
  (∃ i, 0 ≤ i < 9 ∧ aget squares i = Null) →
  (∀ l m, l ∈ lines → ¬ three squares l m) →
  Classic.currentStatus s
    = Some (InProgress (if Nat.even (movesPlayed squares) then X else O))
  ∧ ∀ i, 0 ≤ i < 9 → aget squares i = Null →
      ∃ s' squares',
        Classic.handlePlay i s = Some s'
        ∧ Classic.currentSquares s' = Some squares'
        ∧ aget squares' i
          = Str (if Nat.even (movesPlayed squares) then X else O).
Proof.
  intros Hr Hsq Hempty Hno.
  destruct (Classic_reachable_sim s Hr) as [Hnr Hsync].
  destruct (Nav_next_mark_by_parity (Classic.erase s) squares Hnr Hsq
              Hempty Hno) as [Hst Hplay].
  fold (markAt (movesPlayed squares)). split.
  - unfold Classic.currentStatus, Nav.currentStatus in *.
    unfold Nav.currentSquares in Hst. simpl in Hst.
    unfold Classic.currentSquares in *. rewrite Hsq in *. simpl in *.
    by rewrite Hsync.
  - intros i Hi Hnull. destruct (Hplay i Hi Hnull) as (n' & sq' & Hp & Hc & Hm).
    unfold Nav.handlePlay, Nav.rendered, Nav.currentSquares in Hp.
    simpl in Hp. unfold Classic.currentSquares in Hsq. rewrite Hsq in Hp.
    simpl in Hp.
    destruct (ignoredBy squares i) eqn:Hg.
    { injection Hp as <-. exfalso.
      apply (f_equal is_Some) in Hg. unfold ignoredBy in Hg.
      rewrite Hnull in Hg. simpl in Hg.
      rewrite (no_line_no_winner squares Hno) in Hg. simpl in Hg.
      assert (is_Some (@None Ignored)) as [? ?] by (rewrite Hg; eauto). done. }
    injection Hp as <-.
    eexists _, sq'. split; [|split; [|exact Hm]].
    + unfold Classic.handlePlay, Classic.rendered, Classic.currentSquares.
      rewrite Hsq. simpl. rewrite Hg. reflexivity.
    + unfold Classic.currentSquares. simpl.
      unfold Nav.currentSquares in Hc. simpl in Hc.
      unfold Classic.inSync in Hsync. by rewrite Hsync.
Qed.

Lemma next_mark_by_parity_witness :
  Classic.currentStatus Classic.initial = Some (InProgress X)
  ∧ ∀ i, 0 ≤ i < 9 → aget emptyBoard i = Null →
      ∃ s' squares',
        Classic.handlePlay i Classic.initial = Some s'
        ∧ Classic.currentSquares s' = Some squares'
        ∧ aget squares' i = Str X.
Proof.
  apply (next_mark_by_parity Classic.initial emptyBoard).
  - apply Classic.reach_initial.
  - reflexivity.
  - exists 0. split; [lia | reflexivity].
  - intros l m Hl (H1 & H2 & H3). cbn in Hl.
    repeat (apply elem_of_cons in Hl as [->|Hl]; [discriminate|]).
    by apply elem_of_nil in Hl.
Defined.

End TurnFacts.

(** ** The history invariant *)

Section InvariantFacts.
Import Engine Guard Hist Scenario.

(** C4: in every state reachable by play / undo / redo / jumpTo / reset,
    [history[0]] is the empty nine-cell board, [step] points inside
    [history], every snapshot is a nine-cell board, and snapshot [i + 1] is
    snapshot [i] with exactly one cell changed, from empty to a mark: X when
    [i] is even, O when it is odd. *)
Theorem history_invariant s :
  Nav.reachable s →
  Nav.history s !! 0%nat = Some emptyBoard
  ∧ (0 ≤ Nav.step s < length (Nav.history s))%nat
  ∧ (∀ i b, Nav.history s !! i = Some b → isBoard b)
  ∧ ∀ i b b',
      Nav.history s !! i = Some b → Nav.history s !! S i = Some b' →
      ∃ j, (j < 9)%nat
           ∧ elems b !! j = Some Null
           ∧ elems b' !! j = Some (Str (if Nat.even i then X else O))
           ∧ ∀ c, c ≠ j → elems b' !! c = elems b !! c.
Proof.
  intros Hr.
  assert (Inv (Nav.history s) (Nav.step s)) as [Hfirst Hcursor Hboard Hmoves].
  { induction Hr as [|s a s' _ IH Hw Hh]; [apply Inv_initial|].
    by apply (handle_Inv a s s'). }
  split; [exact Hfirst|]. split; [lia|]. split; [exact Hboard|].
  intros i b b' Hb Hb'. destruct (Hmoves i b b' Hb Hb') as [j Hp].
  exists j. exact Hp.
Qed.

Lemma history_invariant_witness :
  Nav.history travelled !! 0%nat = Some emptyBoard
  ∧ (0 ≤ Nav.step travelled < length (Nav.history travelled))%nat
  ∧ (∀ i b, Nav.history travelled !! i = Some b → isBoard b)
  ∧ ∀ i b b',
      Nav.history travelled !! i = Some b →
      Nav.history travelled !! S i = Some b' →
      ∃ j, (j < 9)%nat
           ∧ elems b !! j = Some Null
           ∧ elems b' !! j = Some (Str (if Nat.even i then X else O))
           ∧ ∀ c, c ≠ j → elems b' !! c = elems b !! c.
Proof.
  apply (history_invariant travelled).
  apply (run_reachable travelMoves Nav.initial).
  - repeat constructor; simpl; lia.
  - vm_compute. reflexivity.
  - apply Nav.reach_initial.
Defined.

End InvariantFacts.

(** ** Plays that are ignored *)

Section IgnoredFacts.
Import Engine Guard Hist Scenario.

#[local] Arguments aget : simpl never.

Lemma Classic_handlePlay_ignored i s squares :
  Classic.currentSquares s = Some squares →
  is_Some (ignoredBy squares i) → Classic.handlePlay i s = Some s.
Proof.
  intros Hsq [g Hg]. unfold Classic.handlePlay, Classic.rendered.
  rewrite Hsq. simpl. by rewrite Hg.
Qed.

Lemma ignoredBy_taken squares i :
  ignoredBy squares i = Some SquareTaken ↔ truthy (aget squares i) = true.
Proof.
  unfold ignoredBy. destruct (truthy (aget squares i)); [done|].
  destruct (truthy (winner (calculateWinner squares))); split; done.
Qed.

Lemma ignoredBy_winner squares i :
  ignoredBy squares i = Some HasWinner ↔
  truthy (aget squares i) = false
  ∧ truthy (winner (calculateWinner squares)) = true.
Proof.
  unfold ignoredBy. destruct (truthy (aget squares i)).
  - split; [done | by intros [? _]].
  - destruct (truthy (winner (calculateWinner squares)));
      split; try done; by intros [_ ?].
Qed.

(** Counterexample to C5 as stated: on this reachable drawn board every play
    on 0..8 is stopped by the first operand of the guard (the square is
    taken); the operand that looks at the game, [winner], is [null], and the
    guard never looks at [isDraw].  A play on index 9, which no square
    covers, goes through on the same drawn board. *)
Lemma draw_stops_plays_by_occupancy_only :
  Classic.run drawMoves Classic.initial = Some drawnState
  ∧ Classic.reachable drawnState
  ∧ Classic.currentSquares drawnState = Some drawnBoard
  ∧ Classic.currentStatus drawnState = Some Draw
  ∧ winner (calculateWinner drawnBoard) = Null
  ∧ ignoredBy drawnBoard 0 = Some SquareTaken
  ∧ ignoredBy drawnBoard 0 ≠ Some HasWinner
  ∧ Classic.handlePlay 9 drawnState ≠ Some drawnState.
Proof.
  split; [vm_compute; reflexivity|]. split.
  { apply (Classic_run_reachable drawMoves Classic.initial).
    - repeat constructor; simpl; lia.
    - vm_compute. reflexivity.
    - apply Classic.reach_initial. }
  repeat split; try (vm_compute; reflexivity); vm_compute; discriminate.
Qed.

(** C5, amended: for a reachable state of App.js and a cell [i] in 0..8, a
    play is ignored -- the state, so [history] and [step], stays as it is,
    and nothing is returned -- when cell [i] is taken or the status is [Won]
    or [Draw].  What stops it is the guard [currentSquares[i] || winner]: the
    taken square whenever the square is taken, the winner only on an empty
    square of a won board; on a drawn board it is always the taken square. *)
Theorem play_ignored_when_taken_or_over s squares i :
  Classic.reachable s → Classic.currentSquares s = Some squares →
  0 ≤ i < 9 →
  aget squares i ≠ Null
  ∨ (∃ m l, Classic.currentStatus s = Some (Won m l))
  ∨ Classic.currentStatus s = Some Draw →
  Classic.handlePlay i s = Some s
  ∧ (ignoredBy squares i = Some SquareTaken ↔ aget squares i ≠ Null)
  ∧ (ignoredBy squares i = Some HasWinner ↔
       aget squares i = Null
       ∧ ∃ m l, Classic.currentStatus s = Some (Won m l))
  ∧ (Classic.currentStatus s = Some Draw →
       ignoredBy squares i = Some SquareTaken).
Proof.
  intros Hr Hsq Hi Hwhy.
  destruct (Classic_reachable_renders s Hr) as (sq' & Hsq' & Hb).
  rewrite Hsq in Hsq'. injection Hsq' as <-.
  destruct (board_cell squares i Hb Hi) as (v & _ & Hv & Hdef).
  assert (truthy (aget squares i) = true ↔ aget squares i ≠ Null) as Htaken.
  { rewrite Hv. destruct v; simpl; split; intros; congruence. }
  assert (truthy (aget squares i) = false ↔ aget squares i = Null) as Hfree.
  { rewrite Hv. destruct v; simpl; split; intros; congruence. }
  assert ((∃ m l, Classic.currentStatus s = Some (Won m l))
          ↔ truthy (winner (calculateWinner squares)) = true) as Hwon.
  { unfold Classic.currentStatus. rewrite Hsq. simpl. split.
    - intros (m & l & E). injection E as E. apply status_Won in E.
      by rewrite E.
    - intros Ht. apply winner_truthy in Ht as (l & m & _ & _ & E).
      exists m, [l.1.1; l.1.2; l.2]. f_equal. by apply status_Won. }
  assert (Classic.currentStatus s = Some Draw →
          ignoredBy squares i = Some SquareTaken) as Hdraw.
  { unfold Classic.currentStatus. rewrite Hsq. simpl. intros E.
    injection E as E. apply status_Draw in E. apply ignoredBy_taken.
    by apply draw_all_taken. }
  split; [|split; [|split]].
  - apply (Classic_handlePlay_ignored i s squares Hsq).
    destruct Hwhy as [Hc | [Hw | Hd]].
    + exists SquareTaken. apply ignoredBy_taken. by apply Htaken.
    + apply Hwon in Hw. unfold ignoredBy. rewrite Hw.
      destruct (truthy (aget squares i)); eauto.
    + exists SquareTaken. by apply Hdraw.
  - by rewrite ignoredBy_taken.
  - by rewrite ignoredBy_winner, Hfree, Hwon.
  - exact Hdraw.
Qed.

Lemma play_ignored_when_taken_or_over_witness :
  Classic.handlePlay 4 drawnState = Some drawnState
  ∧ (ignoredBy drawnBoard 4 = Some SquareTaken ↔ aget drawnBoard 4 ≠ Null)
  ∧ (ignoredBy drawnBoard 4 = Some HasWinner ↔
       aget drawnBoard 4 = Null
       ∧ ∃ m l, Classic.currentStatus drawnState = Some (Won m l))
  ∧ (Classic.currentStatus drawnState = Some Draw →
       ignoredBy drawnBoard 4 = Some SquareTaken).
Proof.
  apply (play_ignored_when_taken_or_over drawnState drawnBoard 4).
  - apply (Classic_run_reachable drawMoves Classic.initial).
    + repeat constructor; simpl; lia.
    + vm_compute. reflexivity.
    + apply Classic.reach_initial.
  - vm_compute. reflexivity.
  - lia.
  - right. right. vm_compute. reflexivity.
Defined.

End IgnoredFacts.

(** ** Playing from the middle of the history *)

Section BranchFacts.
Import Engine Guard Hist Scenario.

#[local] Arguments aget : simpl never.

Lemma jsarray_eq (a b : jsarray) :
  elems a = elems b → props a = props b → a = b.
Proof. destruct a, b. simpl. by intros -> ->. Qed.

(** Counterexample to C6 as stated: after the undo, playing the cell that
    was just taken back appends a board equal to the discarded one, so the
    new history is again [B0, B1, B2]: B3 = B2. *)
Lemma replaying_undone_move_gives_same_board :
  Nav.run [Nav.Play 0; Nav.Play 1; Nav.Undo] Nav.initial = Some undone
  ∧ Nav.handlePlay 1 undone
    = Some (Nav.MkState [emptyBoard; boardX0; boardX0O1] 2).
Proof. split; vm_compute; reflexivity. Qed.

(** C6, amended: a play that is accepted leaves the history cut to
    [0 .. step] with the new board appended and the cursor one further, on
    the new board; a redo right after it is ignored (the cursor is at the
    end), so the board stays the new one.  From History = [B0, B1, B2] with
    the cursor on B1, the result is [B0, B1, B3], where B3 is B1 with the
    mover's mark in cell [i]; B3 equals B2 exactly when [i] is the cell that
    B2 had filled, and differs from it otherwise. *)
Theorem play_truncates_then_appends s squares i :
  Nav.reachable s → Nav.currentSquares s = Some squares → 0 ≤ i < 9 →
  ignoredBy squares i = None →
  let next := aset (slice squares) i (Str (markAt (Nav.step s))) in
  let s' := Nav.MkState (take (Nav.step s + 1) (Nav.history s) ++ [next])
                        (Nav.step s + 1) in
  Nav.handlePlay i s = Some s'
  ∧ Nav.currentSquares s' = Some next
  ∧ Nav.handleRedo s' = Some s'
  ∧ ∀ B0 B1 B2,
      Nav.history s = [B0; B1; B2] → Nav.step s = 1%nat →
      Nav.history s' = [B0; B1; next] ∧ (next = B2 ↔ aget B2 i ≠ Null).
Proof.
  intros Hr Hsq Hi Hg next s'.
  pose proof (reachable_Inv s Hr) as HI.
  pose proof (inv_cursor _ _ HI) as Hcur.
  pose proof (inv_board _ _ HI _ _ Hsq) as Hb.
  pose proof Hg as Hg'. apply ignoredBy_None in Hg' as [Hfree _].
  destruct (play_placed squares i (markAt (Nav.step s)) Hb Hi Hfree)
    as [Hbn Hpn]. fold next in Hbn, Hpn.
  assert (Nav.currentSquares s' = Some next) as Hcs'.
  { unfold Nav.currentSquares, s'. simpl. rewrite lookup_truncated by done.
    rewrite decide_False by lia. by rewrite decide_True by lia. }
  split; [|split; [exact Hcs'|split]].
  - unfold Nav.handlePlay, Nav.rendered. rewrite Hsq. simpl. rewrite Hg.
    unfold Nav.xIsNext. by rewrite playerOf_parity.
  - unfold Nav.handleRedo, Nav.rendered. rewrite Hcs'. simpl.
    rewrite length_app, length_take_le by lia. simpl.
    destruct (Nat.ltb_spec (Nav.step s + 1) (Nav.step s + 1 + 1 - 1));
      [lia | done].
  - intros B0 B1 B2 Hh Hst. unfold s'. simpl. rewrite Hh, Hst. simpl.
    split; [done|].
    unfold Nav.currentSquares in Hsq. rewrite Hh, Hst in Hsq.
    injection Hsq as ->.
    assert (isBoard B2) as Hb2 by (apply (inv_board _ _ HI 2%nat); by rewrite Hh).
    destruct (inv_moves _ _ HI 1%nat squares B2) as [j Hp2];
      [by rewrite Hh..|].
    rewrite Hst in Hpn.
    destruct (board_cell B2 i Hb2 Hi) as (v & Hv & Hgv & _).
    destruct (board_cell_falsy squares i Hb Hi Hfree) as [Hnull _].
    split.
    + intros <-. destruct Hpn as (_ & _ & Hmark & _).
      apply aget_lookup in Hmark; [|lia]. rewrite Z2Nat.id in Hmark by lia.
      by rewrite Hmark.
    + intros Hne. destruct (decide (Z.to_nat i = j)) as [<-|Hnj].
      * apply jsarray_eq.
        -- rewrite (placed_elems squares next _ _ Hb Hbn Hpn).
           by rewrite (placed_elems squares B2 _ _ Hb Hb2 Hp2).
        -- destruct Hbn as (_ & -> & _). by destruct Hb2 as (_ & -> & _).
      * destruct Hp2 as (_ & _ & _ & Hrest).
        rewrite (Hrest _ Hnj), Hnull in Hv. injection Hv as <-.
        by rewrite Hgv in Hne.
Qed.

Lemma play_truncates_then_appends_witness :
  let next := MkArray [Str X; Null; Str O; Null; Null; Null; Null; Null; Null] ∅ in
  let s' := Nav.MkState [emptyBoard; boardX0; next] 2 in
  Nav.handlePlay 2 undone = Some s'
  ∧ Nav.currentSquares s' = Some next
  ∧ Nav.handleRedo s' = Some s'
  ∧ ∀ B0 B1 B2,
      Nav.history undone = [B0; B1; B2] → Nav.step undone = 1%nat →
      Nav.history s' = [B0; B1; next] ∧ (next = B2 ↔ aget B2 2 ≠ Null).
Proof.
  apply (play_truncates_then_appends undone boardX0 2).
  - apply (run_reachable [Nav.Play 0; Nav.Play 1; Nav.Undo] Nav.initial).
    + repeat constructor; simpl; lia.
    + vm_compute. reflexivity.
    + apply Nav.reach_initial.
  - reflexivity.
  - lia.
  - vm_compute. reflexivity.
Defined.

End BranchFacts.

(** ** Undo *)

Section UndoFacts.
Import Engine Guard Hist Scenario.

#[local] Arguments aget : simpl never.
#[local] Arguments Nat.modulo : simpl never.

Lemma winner_Null_or_mark squares :
  winner (calculateWinner squares) = Null
  ∨ ∃ m, winner (calculateWinner squares) = Str m.
Proof.
  unfold calculateWinner.
  destruct (scan_winner squares lines) as [E | (l & m & _ & _ & E)];
    [by left|]. right. exists m. by rewrite E.
Qed.

Lemma winner_not_Null squares :
  winner (calculateWinner squares) ≠ Null ↔
  truthy (winner (calculateWinner squares)) = true.
Proof.
  destruct (winner_Null_or_mark squares) as [-> | [m ->]]; simpl;
    split; intros; congruence.
Qed.

(** With history navigation undo never looks at the winner: it is ignored
    exactly at the start of the history. *)
Lemma Nav_undo_steps_back s squares :
  Nav.currentSquares s = Some squares →
  (Nav.handleUndo s = Some s ↔ Nav.step s = 0%nat)
  ∧ (Nav.step s ≠ 0%nat →
     ∃ s', Nav.handleUndo s = Some s'
           ∧ Nav.history s' = Nav.history s
           ∧ S (Nav.step s') = Nav.step s).
Proof.
  intros Hsq. unfold Nav.handleUndo, Nav.rendered. rewrite Hsq. simpl.
  destruct (Nat.ltb_spec 0 (Nav.step s)) as [Hpos|Hz].
  - split.
    + split; [|lia]. intros H. injection H as H.
      apply (f_equal Nav.step) in H. simpl in H. lia.
    + intros _. eexists. split; [done|]. simpl. split; [done|lia].
  - split; [split; [lia|done]|lia].
Qed.

(** With history navigation a play can always be taken back. *)
Lemma Nav_undo_after_play s squares i s' :
  Nav.currentSquares s = Some squares → ignoredBy squares i = None →
  Nav.handlePlay i s = Some s' →
  ∃ s'', Nav.handleUndo s' = Some s''
         ∧ Nav.currentSquares s'' = Some squares
         ∧ Nav.currentStatus s'' = Nav.currentStatus s
         ∧ Nav.step s'' = Nav.step s.
Proof.
  intros Hsq Hg Hp. pose proof Hsq as Hlt. apply lookup_lt_Some in Hlt.
  unfold Nav.handlePlay, Nav.rendered in Hp. rewrite Hsq in Hp.
  simpl in Hp. rewrite Hg in Hp. injection Hp as <-.
  unfold Nav.handleUndo, Nav.rendered, Nav.currentStatus, Nav.currentSquares.
  simpl. rewrite lookup_truncated by done.
  rewrite decide_False by lia. rewrite decide_True by lia. simpl.
  destruct (Nat.ltb_spec 0 (Nav.step s + 1)); [|lia].
  eexists. split; [done|]. simpl.
  replace (Nav.step s + 1 - 1)%nat with (Nav.step s) by lia.
  rewrite lookup_truncated by done. rewrite decide_True by lia.
  unfold Nav.currentSquares in Hsq. rewrite Hsq. simpl.
  unfold Nav.xIsNext. simpl. done.
Qed.

(** Counterexample to C7 as stated: X completes the diagonal 0-4-8 with an
    accepted play; the undo right after it is ignored by App.js and the board
    stays the won one. *)
Lemma undo_ignored_after_winning_play :
  Classic.run (take 4 winMoves) Classic.initial = Some beforeWin
  ∧ Classic.handlePlay 8 beforeWin = Some afterWin
  ∧ afterWin ≠ beforeWin
  ∧ Classic.handleUndo afterWin = Some afterWin
  ∧ Classic.currentSquares afterWin ≠ Classic.currentSquares beforeWin
  ∧ Classic.currentStatus afterWin ≠ Classic.currentStatus beforeWin.
Proof.
  repeat split; try (vm_compute; reflexivity); vm_compute; discriminate.
Qed.

(** C7, amended: after an accepted play, an immediate undo in App.js brings
    back exactly the board and the status from before the play, unless the
    play completed a line: [handleUndo] tests [step > 0 && !winner], so on
    the won board the undo is ignored. *)
Theorem undo_after_play_round_trip s squares i s' squares' :
  Classic.currentSquares s = Some squares → ignoredBy squares i = None →
  Classic.handlePlay i s = Some s' →
  Classic.currentSquares s' = Some squares' →
  (winner (calculateWinner squares') = Null →
     ∃ s'', Classic.handleUndo s' = Some s''
            ∧ Classic.currentSquares s'' = Some squares
            ∧ Classic.currentStatus s'' = Classic.currentStatus s
            ∧ Classic.step s'' = Classic.step s)
  ∧ (winner (calculateWinner squares') ≠ Null →
     Classic.handleUndo s' = Some s').
Proof.
  intros Hsq Hg Hp Hsq'. pose proof Hsq as Hlt. apply lookup_lt_Some in Hlt.
  unfold Classic.handlePlay, Classic.rendered in Hp. rewrite Hsq in Hp.
  simpl in Hp. rewrite Hg in Hp. injection Hp as <-.
  unfold Classic.handleUndo, Classic.rendered. rewrite Hsq'. simpl.
  destruct (Nat.ltb_spec 0 (Classic.step s + 1)); [|lia]. simpl. split.
  - intros Hw. rewrite Hw. simpl. eexists. split; [done|].
    unfold Classic.currentStatus, Classic.currentSquares. simpl.
    replace (Classic.step s + 1 - 1)%nat with (Classic.step s) by lia.
    rewrite lookup_truncated by done. rewrite decide_True by lia.
    unfold Classic.currentSquares in Hsq. rewrite Hsq. simpl.
    by rewrite negb_involutive.
  - intros Hw. apply winner_not_Null in Hw. by rewrite Hw.
Qed.

Lemma undo_after_play_round_trip_witness :
  (winner (calculateWinner boardX0) = Null →
     ∃ s'', Classic.handleUndo
              (Classic.MkState [emptyBoard; boardX0] 1 false) = Some s''
            ∧ Classic.currentSquares s'' = Some emptyBoard
            ∧ Classic.currentStatus s'' = Classic.currentStatus Classic.initial
            ∧ Classic.step s'' = Classic.step Classic.initial)
  ∧ (winner (calculateWinner boardX0) ≠ Null →
     Classic.handleUndo (Classic.MkState [emptyBoard; boardX0] 1 false)
     = Some (Classic.MkState [emptyBoard; boardX0] 1 false)).
Proof.
  apply (undo_after_play_round_trip Classic.initial emptyBoard 0).
  - reflexivity.
  - vm_compute. reflexivity.
  - vm_compute. reflexivity.
  - reflexivity.
Defined.

(** Counterexample to C8 as stated: the cursor is at 5, not 0, yet undo is
    ignored, because the board shows a winner. *)
Lemma undo_ignored_on_won_board :
  Classic.reachable afterWin
  ∧ Classic.step afterWin = 5%nat
  ∧ Classic.currentStatus afterWin = Some (Won X [0; 4; 8])
  ∧ Classic.handleUndo afterWin = Some afterWin.
Proof.
  split.
  { apply (Classic_run_reachable winMoves Classic.initial).
    - repeat constructor; simpl; lia.
    - vm_compute. reflexivity.
    - apply Classic.reach_initial. }
  repeat split; vm_compute; reflexivity.
Qed.

(** C8, amended: in App.js undo is ignored if and only if the cursor is 0 or
    the current board has a winner; in every other state -- in progress or
    drawn -- it moves the cursor back by exactly one and leaves the history
    as it is. *)
Theorem undo_ignored_at_start_or_after_win s squares :
  Classic.currentSquares s = Some squares →
  (Classic.handleUndo s = Some s ↔
     Classic.step s = 0%nat ∨ winner (calculateWinner squares) ≠ Null)
  ∧ (Classic.step s ≠ 0%nat → winner (calculateWinner squares) = Null →
     ∃ s', Classic.handleUndo s = Some s'
           ∧ Classic.history s' = Classic.history s
           ∧ S (Classic.step s') = Classic.step s).
Proof.
  intros Hsq. unfold Classic.handleUndo, Classic.rendered. rewrite Hsq.
  simpl. rewrite winner_not_Null.
  destruct (Nat.ltb_spec 0 (Classic.step s)) as [Hpos|Hz]; simpl.
  - destruct (truthy (winner (calculateWinner squares))) eqn:Ht; simpl.
    + split; [split; [by right|done]|].
      intros _ Hw. rewrite Hw in Ht. done.
    + split.
      * split; [|intros [?|?]; [lia|done]]. intros H. injection H as H.
        apply (f_equal Classic.step) in H. simpl in H. lia.
      * intros _ _. eexists. split; [done|]. simpl. split; [done|lia].
  - split; [split; [intros _; left; lia | done]|lia].
Qed.

Lemma undo_ignored_at_start_or_after_win_witness :
  (Classic.handleUndo drawnState = Some drawnState ↔
     Classic.step drawnState = 0%nat
     ∨ winner (calculateWinner drawnBoard) ≠ Null)
  ∧ (Classic.step drawnState ≠ 0%nat →
     winner (calculateWinner drawnBoard) = Null →
     ∃ s', Classic.handleUndo drawnState = Some s'
           ∧ Classic.history s' = Classic.history drawnState
           ∧ S (Classic.step s') = Classic.step drawnState).
Proof.
  apply (undo_ignored_at_start_or_after_win drawnState drawnBoard).
  vm_compute. reflexivity.
Defined.

End UndoFacts.

(** ** The five-move scenario *)

Section ScenarioFacts.
Import Engine Guard Hist Scenario.

#[local] Arguments aget : simpl never.




End ScenarioFacts.

(** ** Plays outside the board *)

Section OutOfRangeFacts.
Import Engine Guard Hist Scenario.

#[local] Arguments aget : simpl never.
#[local] Arguments Nat.modulo : simpl never.

(** [next = squares.slice(); next[i] = mark] for an index no cell has. *)
Lemma outside_next squares i m :
  isBoard squares → ¬ (0 ≤ i < 9) →
  aget squares i = Undefined
  ∧ aget (aset (slice squares) i (Str m)) i = Str m
  ∧ (9 ≤ i < indexLimit →
     length (elems (aset (slice squares) i (Str m))) = (Z.to_nat i + 1)%nat)
  ∧ (i < 0 ∨ indexLimit ≤ i →
     elems (aset (slice squares) i (Str m)) = elems squares
     ∧ props (aset (slice squares) i (Str m)) !! i = Some (Str m))
  ∧ ¬ isBoard (aset (slice squares) i (Str m))
  ∧ ∀ j m', ¬ placed squares (aset (slice squares) i (Str m)) j m'.
Proof.
  intros (Hlen & Hprops & Hdef) Hi. unfold aget, aset, slice. simpl.
  destruct (decide (0 ≤ i < indexLimit)) as [Hidx|Hkey].
  - assert (9 ≤ Z.to_nat i)%nat as Hn by lia.
    rewrite decide_False by lia. simpl.
    rewrite lookup_ge_None_2 by lia. simpl.
    assert (length (elems squares
                    ++ replicate (Z.to_nat i - length (elems squares)) Undefined
                    ++ [Str m]) = (Z.to_nat i + 1)%nat) as Hlen'.
    { rewrite !length_app, length_replicate. simpl. lia. }
    split; [done|]. split.
    { rewrite lookup_app_r by lia. rewrite lookup_app_r
        by (rewrite length_replicate; lia).
      rewrite length_replicate.
      by replace (Z.to_nat i - length (elems squares)
                  - (Z.to_nat i - length (elems squares)))%nat with 0%nat
        by lia. }
    split; [done|]. split; [lia|]. split.
    + intros (Hl & _). simpl in Hl. lia.
    + intros j m' (Hj & Hnull & Hmark & _). simpl in Hmark.
      rewrite lookup_app_l in Hmark by lia. congruence.
  - simpl. rewrite Hprops, lookup_empty. simpl.
    rewrite lookup_insert_eq. simpl.
    split; [done|]. split; [done|]. split; [lia|]. split; [done|]. split.
    + intros (_ & Hp & _). simpl in Hp.
      by apply (insert_non_empty (M := gmap Z)) in Hp.
    + intros j m' (Hj & Hnull & Hmark & _). simpl in Hmark. congruence.
Qed.

(** The same fact for the revision that derives [xIsNext] from [step]. *)
Lemma Nav_play_outside_board_accepted s squares i :
  Nav.reachable s → Nav.currentSquares s = Some squares →
  ¬ (0 ≤ i < 9) → winner (calculateWinner squares) = Null →
  let next := aset (slice squares) i (Str (markAt (Nav.step s))) in
  let s' := Nav.MkState (take (Nav.step s + 1) (Nav.history s) ++ [next])
                        (Nav.step s + 1) in
  Nav.handlePlay i s = Some s'
  ∧ Nav.currentSquares s' = Some next
  ∧ aget next i = Str (markAt (Nav.step s))
  ∧ (9 ≤ i < indexLimit → length (elems next) = (Z.to_nat i + 1)%nat
                          ∧ (9 < length (elems next))%nat)
  ∧ (i < 0 ∨ indexLimit ≤ i →
     elems next = elems squares
     ∧ props next !! i = Some (Str (markAt (Nav.step s))))
  ∧ ¬ isBoard next
  ∧ (∀ j m, ¬ placed squares next j m)
  ∧ ¬ Inv (Nav.history s') (Nav.step s').
Proof.
  intros Hr Hsq Hi Hw next s'.
  pose proof (reachable_Inv s Hr) as HI.
  pose proof (inv_cursor _ _ HI) as Hcur.
  pose proof (inv_board _ _ HI _ _ Hsq) as Hb.
  destruct (outside_next squares i (markAt (Nav.step s)) Hb Hi)
    as (Hund & Hget & Hbig & Hkey & Hnb & Hnp).
  fold next in Hget, Hbig, Hkey, Hnb, Hnp.
  assert (Nav.currentSquares s' = Some next) as Hcs'.
  { unfold Nav.currentSquares, s'. simpl. rewrite lookup_truncated by done.
    rewrite decide_False by lia. by rewrite decide_True by lia. }
  split; [|split; [exact Hcs'|split; [exact Hget|split; [|split;
    [exact Hkey|split; [exact Hnb|split; [exact Hnp|]]]]]]].
  - unfold Nav.handlePlay, Nav.rendered. rewrite Hsq. simpl.
    unfold ignoredBy. rewrite Hund, Hw. simpl.
    unfold Nav.xIsNext. by rewrite playerOf_parity.
  - intros H9. specialize (Hbig H9). split; [done|lia].
  - intros HI'.
    destruct (inv_moves _ _ HI' (Nav.step s) squares next) as [j Hp].
    + unfold s'. simpl. rewrite lookup_truncated by done.
      by rewrite decide_True by lia.
    + replace (S (Nav.step s)) with (Nav.step s') by (unfold s'; simpl; lia).
      exact Hcs'.
    + by apply (Hnp j (markAt (Nav.step s))).
Qed.

(** Counterexample to C10 as stated: 4294967295 is at least 9, but it is no
    array index any more.  The play is accepted, and the snapshot it appends
    still has its nine cells, all empty; the mark sits in a property. *)
Lemma play_past_index_limit_keeps_nine_cells :
  Classic.reachable Classic.initial
  ∧ winner (calculateWinner emptyBoard) = Null
  ∧ Classic.handlePlay 4294967295 Classic.initial
    = Some (Classic.MkState [emptyBoard; pastLimitBoard] 1 false)
  ∧ elems pastLimitBoard = elems emptyBoard
  ∧ length (elems pastLimitBoard) = 9%nat
  ∧ ¬ (9 < length (elems pastLimitBoard))%nat.
Proof.
  split; [apply Classic.reach_initial|]. split; [reflexivity|].
  split; [vm_compute; reflexivity|]. split; [reflexivity|].
  split; [reflexivity|]. simpl. lia.
Qed.

(** C10, amended: in a reachable state of App.js whose board has no winner, a
    play on an index outside 0..8 is not ignored.  It appends a snapshot and
    moves the cursor on; the snapshot holds the mark at that index -- as a
    tenth or later element when [9 ≤ i ≤ 2^32 - 2], so that it has
    [i + 1 > 9] elements, and as a property beside the nine untouched cells
    when [i < 0] or [i ≥ 2^32 - 1].  None of the nine cells went from empty
    to a mark, so the new history breaks the invariant of C4. *)
Theorem play_outside_board_accepted s squares i :
  Classic.reachable s → Classic.currentSquares s = Some squares →
  ¬ (0 ≤ i < 9) → winner (calculateWinner squares) = Null →
  let mark := playerOf (Classic.xIsNext s) in
  let next := aset (slice squares) i (Str mark) in
  let s' := Classic.MkState
              (take (Classic.step s + 1) (Classic.history s) ++ [next])
              (Classic.step s + 1) (negb (Classic.xIsNext s)) in
  Classic.handlePlay i s = Some s'
  ∧ Classic.currentSquares s' = Some next
  ∧ aget next i = Str mark
  ∧ (9 ≤ i < 4294967295 → length (elems next) = (Z.to_nat i + 1)%nat
                          ∧ (9 < length (elems next))%nat)
  ∧ (i < 0 ∨ 4294967295 ≤ i →
     elems next = elems squares ∧ props next !! i = Some (Str mark))
  ∧ ¬ isBoard next
  ∧ (∀ j m, ¬ placed squares next j m)
  ∧ ¬ Inv (Classic.history s') (Classic.step s').
Proof.
  intros Hr Hsq Hi Hw mark next s'.
  pose proof (Classic_flag_parity s Hr) as Hflag. fold mark in Hflag.
  destruct (Classic_reachable_sim s Hr) as [Hnr _].
  destruct (Nav_play_outside_board_accepted (Classic.erase s) squares i
              Hnr Hsq Hi Hw)
    as (_ & Hcs & Hget & Hbig & Hkey & Hnb & Hnp & HnI).
  simpl in *. rewrite <- Hflag in *.
  fold next in Hcs, Hget, Hbig, Hkey, Hnb, Hnp, HnI.
  split; [|split; [exact Hcs|split; [exact Hget|split; [exact Hbig|split;
    [exact Hkey|split; [exact Hnb|split; [exact Hnp|exact HnI]]]]]]].
  unfold Classic.handlePlay, Classic.rendered. rewrite Hsq. simpl.
  unfold ignoredBy.
  destruct (Classic_reachable_renders s Hr) as (sq' & Hsq' & Hb).
  rewrite Hsq in Hsq'. injection Hsq' as <-.
  destruct (outside_next squares i mark Hb Hi) as (Hund & _).
  by rewrite Hund, Hw.
Qed.

Lemma play_outside_board_accepted_witness :
  let next := MkArray (replicate 9 Null ++ [Undefined; Str X]) ∅ in
  let s' := Classic.MkState [emptyBoard; next] 1 false in
  Classic.handlePlay 10 Classic.initial = Some s'
  ∧ Classic.currentSquares s' = Some next
  ∧ aget next 10 = Str X
  ∧ (9 ≤ 10 < 4294967295 → length (elems next) = (Z.to_nat 10 + 1)%nat
                           ∧ (9 < length (elems next))%nat)
  ∧ (10 < 0 ∨ 4294967295 ≤ 10 →
     elems next = elems emptyBoard ∧ props next !! 10 = Some (Str X))
  ∧ ¬ isBoard next
  ∧ (∀ j m, ¬ placed emptyBoard next j m)
  ∧ ¬ Inv (Classic.history s') (Classic.step s').
Proof.
  apply (play_outside_board_accepted Classic.initial emptyBoard 10).
  - apply Classic.reach_initial.
  - reflexivity.
  - lia.
  - vm_compute. reflexivity.
Defined.

(** With [i = -1] the nine cells stay as they are and the mark sits in the
    property [-1] of the new snapshot. *)
Lemma play_minus_one_sets_property :
  Classic.handlePlay (-1) Classic.initial
  = Some (Classic.MkState
            [emptyBoard; MkArray (replicate 9 Null) {[ (-1) := Str X ]}]
            1 false).
Proof. vm_compute. reflexivity. Qed.

(** Once such a play has been recorded the state is no longer one the page
    can reach with its own cells, and the same index is then taken: a second
    play on it is ignored. *)
Lemma second_play_on_outside_index_ignored :
  ∃ s1, Classic.handlePlay 9 Classic.initial = Some s1
        ∧ s1 ≠ Classic.initial
        ∧ Classic.handlePlay 9 s1 = Some s1.
Proof.
  eexists. split; [vm_compute; reflexivity|].
  split; [discriminate | vm_compute; reflexivity].
Qed.

End OutOfRangeFacts.

(** ** More on calculateWinner *)

(** Case analysis on a cell index known to lie in 0..8. *)
Ltac nine_cells i :=
  let H := fresh in
  assert (i = 0 ∨ i = 1 ∨ i = 2 ∨ i = 3 ∨ i = 4 ∨ i = 5 ∨ i = 6 ∨ i = 7
          ∨ i = 8) as H by lia;
  destruct_or! H; subst i.

Section WinnerFacts.
Import Engine Guard Hist View Scenario.

#[local] Arguments lineTest : simpl never.
#[local] Arguments aget : simpl never.

(** Any line whose test succeeds makes the loop return a winner. *)
Lemma scan_some squares ls l :
  l ∈ ls → lineTest squares l = true →
  truthy (winner (scan squares ls)) = true.
Proof.
  induction ls as [|[[a b] c] ls IH]; intros Hl Ht;
    [by apply elem_of_nil in Hl|]. simpl.
  destruct (lineTest squares (a, b, c)) eqn:E.
  - simpl. unfold lineTest in E. apply andb_prop in E as [E _].
    by apply andb_prop in E as [E _].
  - apply elem_of_cons in Hl as [->|Hl]; [congruence|]. by apply IH.
Qed.

(** Without a winner the loop falls through to the empty line. *)
Lemma scan_line_nil squares ls :
  winner (scan squares ls) = Null → line (scan squares ls) = [].
Proof.
  induction ls as [|[[a b] c] ls IH]; [done|]. simpl.
  destruct (lineTest squares (a, b, c)) eqn:Et; [|done]. simpl.
  apply lineTest_three in Et as [m (Ha & _)]. simpl in Ha. by rewrite Ha.
Qed.

(** Every line has its three cells on the board. *)
Lemma lines_on_board a b c :
  (a, b, c) ∈ lines → 0 ≤ a < 9 ∧ 0 ≤ b < 9 ∧ 0 ≤ c < 9.
Proof.
  intros Hl. cbn in Hl.
  repeat (apply elem_of_cons in Hl as [Hl|Hl]; [injection Hl as -> -> ->; lia|]).
  by apply elem_of_nil in Hl.
Qed.

(** [calculateWinner] reports a winner exactly when some line holds three
    equal marks; the mark it reports fills the line it reports, which is one
    of the eight; without a winner the line is empty. *)
Theorem winner_iff_complete_line squares :
  (winner (calculateWinner squares) ≠ Null ↔
     ∃ l m, l ∈ lines ∧ three squares l m)
  ∧ (∀ m, winner (calculateWinner squares) = Str m →
       ∃ a b c, (a, b, c) ∈ lines
                ∧ line (calculateWinner squares) = [a; b; c]
                ∧ three squares (a, b, c) m)
  ∧ (winner (calculateWinner squares) = Null →
       line (calculateWinner squares) = []).
Proof.
  split; [|split].
  - split.
    + intros Hw. apply winner_not_Null in Hw.
      apply winner_truthy in Hw as (l & m & Hl & Hm & _). eauto.
    + intros (l & m & Hl & Hm). apply winner_not_Null.
      apply (scan_some squares lines l Hl). apply lineTest_three. eauto.
  - intros m Hw.
    assert (truthy (winner (calculateWinner squares)) = true) as Ht
      by by rewrite Hw.
    apply winner_truthy in Ht as ([[a b] c] & m' & Hl & Hm & E).
    rewrite E in Hw. injection Hw as ->. exists a, b, c.
    by rewrite E.
  - apply scan_line_nil.
Qed.

(** [calculateWinner] reads the indices 0..8 and nothing else: two arrays
    that agree there get the same result, whatever further elements or
    properties they carry. *)
Theorem calculateWinner_reads_nine_cells a b :
  (∀ i, 0 ≤ i < 9 → aget a i = aget b i) →
  calculateWinner a = calculateWinner b.
Proof.
  intros H. unfold calculateWinner.
  assert (∀ ls, (∀ x y z, (x, y, z) ∈ ls →
                  0 ≤ x < 9 ∧ 0 ≤ y < 9 ∧ 0 ≤ z < 9) →
                scan a ls = scan b ls) as Hscan.
  { induction ls as [|[[x y] z] ls IH]; intros Hin; [done|]. simpl.
    destruct (Hin x y z) as (Hx & Hy & Hz); [apply list_elem_of_here|].
    unfold lineTest. rewrite !(H x), !(H y), !(H z) by done.
    rewrite IH; [done|]. intros x' y' z' Hl. apply Hin.
    by apply list_elem_of_further. }
  apply Hscan. apply lines_on_board.
Qed.

Lemma calculateWinner_reads_nine_cells_witness :
  calculateWinner drawnBoard
  = calculateWinner (aset (aset drawnBoard 11 (Str X)) (-1) (Str O)).
Proof.
  apply (calculateWinner_reads_nine_cells drawnBoard).
  intros i Hi. nine_cells i; reflexivity.
Defined.

Lemma aget_swapArray a i : aget (swapArray a) i = swapValue (aget a i).
Proof.
  unfold aget, swapArray. simpl. case_decide.
  - rewrite list_lookup_fmap. by destruct (elems a !! Z.to_nat i).
  - rewrite lookup_fmap. by destruct (props a !! i).
Qed.

Lemma lineTest_swapArray a l : lineTest (swapArray a) l = lineTest a l.
Proof.
  destruct l as [[x y] z]. unfold lineTest, strict_eq.
  rewrite !aget_swapArray.
  destruct (aget a x) as [| |[|]], (aget a y) as [| |[|]],
    (aget a z) as [| |[|]]; reflexivity.
Qed.

(** The two players are treated alike: exchanging X and O on every cell
    exchanges the winner and leaves the winning line where it is. *)
Theorem calculateWinner_swap squares :
  calculateWinner (swapArray squares)
  = MkResult (swapValue (winner (calculateWinner squares)))
             (line (calculateWinner squares)).
Proof.
  unfold calculateWinner. induction lines as [|[[a b] c] ls IH]; [done|].
  simpl. rewrite lineTest_swapArray.
  destruct (lineTest squares (a, b, c)); [|exact IH].
  simpl. by rewrite aget_swapArray.
Qed.

Lemma elem_of_board squares c :
  c ∈ board squares ↔
  ∃ i, 0 ≤ i < 9
       ∧ c = renderCell squares (line (calculateWinner squares))
                        (gameOver squares) i.
Proof.
  unfold board, boardCells. rewrite list_elem_of_fmap. split.
  - intros (i & -> & Hi). apply elem_of_seqZ in Hi. exists i. split; [lia|done].
  - intros (i & Hi & ->). exists i. split; [done|]. apply elem_of_seqZ. lia.
Qed.

(** The highlight: a cell is drawn as winning only if the game has a winner
    and the cell holds the winner's mark (so it is disabled as well), and the
    board shows three such cells when there is a winner and none otherwise. *)
Theorem highlighted_cells_hold_winner squares :
  (∀ c, c ∈ board squares → cellWinning c = true →
     ∃ m, winner (calculateWinner squares) = Str m
          ∧ cellValue c = Str m ∧ cellDisabled c = true)
  ∧ length (filter (λ c, cellWinning c = true) (board squares))
    = if truthy (winner (calculateWinner squares)) then 3%nat else 0%nat.
Proof.
  destruct (winner_Null_or_mark squares) as [Hn | [m Hm]].
  - pose proof (scan_line_nil squares lines Hn) as Hl.
    fold (calculateWinner squares) in Hl. split.
    + intros c Hc Hw. apply elem_of_board in Hc as (i & _ & ->).
      simpl in Hw. rewrite Hl in Hw. apply bool_decide_eq_true in Hw.
      by apply elem_of_nil in Hw.
    + rewrite Hn. unfold board, boardCells. rewrite Hl. reflexivity.
  - assert (truthy (winner (calculateWinner squares)) = true) as Ht
      by by rewrite Hm.
    apply winner_truthy in Ht as ([[a b] c] & m' & Hin & (Ha & Hb & Hc) & E).
    simpl in Ha, Hb, Hc. rewrite E in Hm. injection Hm as ->.
    assert (line (calculateWinner squares) = [a; b; c]) as Hl by by rewrite E.
    assert (winner (calculateWinner squares) = Str m) as Hm by by rewrite E.
    clear E. split.
    + intros cell Hcell Hw. apply elem_of_board in Hcell as (i & _ & ->).
      simpl in *. rewrite Hl in Hw. apply bool_decide_eq_true in Hw.
      exists m. split; [done|].
      assert (aget squares i = Str m) as ->; [|done].
      repeat (apply elem_of_cons in Hw as [->|Hw]; [done|]).
      by apply elem_of_nil in Hw.
    + rewrite Hm. unfold board, boardCells. rewrite Hl. clear Hl.
      cbn in Hin.
      repeat (apply elem_of_cons in Hin as [Hin|Hin];
              [injection Hin as -> -> ->; reflexivity|]).
      by apply elem_of_nil in Hin.
Qed.

End WinnerFacts.

(** ** Cells: what is disabled and what an activation does *)

Section CellFacts.
Import Engine Guard Hist View Scenario.

#[local] Arguments aget : simpl never.
#[local] Arguments Nat.modulo : simpl never.

(** On a board, [!!squares[i] || gameOver] and the guard of [handlePlay]
    agree on every cell: a draw leaves no empty cell. *)
Lemma disabled_iff_ignored squares i :
  isBoard squares → 0 ≤ i < 9 →
  truthy (aget squares i) || gameOver squares = true
  ↔ is_Some (ignoredBy squares i).
Proof.
  intros Hb Hi. unfold gameOver, ignoredBy.
  destruct (truthy (aget squares i)) eqn:Hc; simpl; [by eauto|].
  destruct (truthy (winner (calculateWinner squares))) eqn:Hw; simpl;
    [by eauto|].
  destruct (isDraw squares) eqn:Hd.
  - pose proof (draw_all_taken squares i Hb Hd Hi). congruence.
  - split; [done|]. by intros [? ?].
Qed.

Lemma Classic_handlePlay_accepted squares i s :
  Classic.currentSquares s = Some squares → ignoredBy squares i = None →
  ∃ s', Classic.handlePlay i s = Some s'
        ∧ Classic.step s' = S (Classic.step s).
Proof.
  intros Hsq Hg. unfold Classic.handlePlay, Classic.rendered.
  rewrite Hsq. simpl. rewrite Hg. eexists. split; [done|]. simpl. lia.
Qed.

Lemma Nav_handlePlay_accepted squares i s :
  Nav.currentSquares s = Some squares → ignoredBy squares i = None →
  ∃ s', Nav.handlePlay i s = Some s' ∧ Nav.step s' = S (Nav.step s).
Proof.
  intros Hsq Hg. unfold Nav.handlePlay, Nav.rendered.
  rewrite Hsq. simpl. rewrite Hg. eexists. split; [done|]. simpl. lia.
Qed.

Lemma Nav_handlePlay_ignored i s squares :
  Nav.currentSquares s = Some squares →
  is_Some (ignoredBy squares i) → Nav.handlePlay i s = Some s.
Proof.
  intros Hsq [g Hg]. unfold Nav.handlePlay, Nav.rendered.
  rewrite Hsq. simpl. by rewrite Hg.
Qed.

(** In every state App.js can reach, the board draws a cell as disabled
    exactly when a play on that cell would leave the state as it is. *)
Theorem cell_disabled_iff_play_ignored s squares i :
  Classic.reachable s → Classic.currentSquares s = Some squares →
  0 ≤ i < 9 →
  cellDisabled (renderCell squares (line (calculateWinner squares))
                           (gameOver squares) i) = true
  ↔ Classic.handlePlay i s = Some s.
Proof.
  intros Hr Hsq Hi.
  destruct (Classic_reachable_renders s Hr) as (sq' & Hsq' & Hb).
  rewrite Hsq in Hsq'. injection Hsq' as <-. simpl.
  rewrite (disabled_iff_ignored squares i Hb Hi). split.
  - by apply Classic_handlePlay_ignored.
  - intros Hp. destruct (ignoredBy squares i) eqn:Hg; [eauto|].
    destruct (Classic_handlePlay_accepted squares i s Hsq Hg)
      as (s' & Hp' & Hstep).
    rewrite Hp in Hp'. injection Hp' as <-. lia.
Qed.

Lemma cell_disabled_iff_play_ignored_witness :
  cellDisabled (renderCell drawnBoard (line (calculateWinner drawnBoard))
                           (gameOver drawnBoard) 4) = true
  ↔ Classic.handlePlay 4 drawnState = Some drawnState.
Proof.
  apply (cell_disabled_iff_play_ignored drawnState drawnBoard 4).
  - apply (Classic_run_reachable drawMoves Classic.initial).
    + repeat constructor; simpl; lia.
    + vm_compute. reflexivity.
    + apply Classic.reach_initial.
  - vm_compute. reflexivity.
  - lia.
Defined.

Lemma activates_other key :
  key ≠ "Enter" → key ≠ " " → activates key = false.
Proof.
  intros H1 H2. unfold activates. by rewrite !bool_decide_eq_false_2.
Qed.

(** With history navigation: clicking a cell, pressing Enter on it or
    pressing Space on it has exactly the effect of [handlePlay] on that cell
    (which may be none); any other key does nothing.  The [disabled] gate of
    [Cell] never holds back a play that [handlePlay] would have taken. *)
Theorem cell_activation_is_handlePlay s i :
  Nav.reachable s → 0 ≤ i < 9 →
  cellEvent i Click s = Nav.handlePlay i s
  ∧ cellEvent i (KeyDown "Enter") s = Nav.handlePlay i s
  ∧ cellEvent i (KeyDown " ") s = Nav.handlePlay i s
  ∧ ∀ key, key ≠ "Enter" → key ≠ " " →
           cellEvent i (KeyDown key) s = Some s.
Proof.
  intros Hr Hi. destruct (reachable_renders s Hr) as (squares & Hsq & Hb).
  unfold cellEvent. rewrite Hsq. simpl.
  pose proof (disabled_iff_ignored squares i Hb Hi) as Hd.
  destruct (truthy (aget squares i) || gameOver squares) eqn:E.
  - assert (Nav.handlePlay i s = Some s) as ->.
    { apply (Nav_handlePlay_ignored i s squares Hsq). by apply Hd. }
    repeat split; done.
  - split; [done|]. split; [done|]. split; [done|].
    intros key H1 H2. by rewrite (activates_other key H1 H2).
Qed.

Lemma cell_activation_is_handlePlay_witness :
  Nav.handlePlay 4 undone ≠ Some undone
  ∧ cellEvent 4 Click undone = Nav.handlePlay 4 undone
  ∧ cellEvent 4 (KeyDown "Enter") undone = Nav.handlePlay 4 undone
  ∧ cellEvent 4 (KeyDown " ") undone = Nav.handlePlay 4 undone
  ∧ ∀ key, key ≠ "Enter" → key ≠ " " →
           cellEvent 4 (KeyDown key) undone = Some undone.
Proof.
  split; [vm_compute; discriminate|].
  apply (cell_activation_is_handlePlay undone 4).
  - apply (run_reachable [Nav.Play 0; Nav.Play 1; Nav.Undo] Nav.initial).
    + repeat constructor; simpl; lia.
    + vm_compute. reflexivity.
    + apply Nav.reach_initial.
  - lia.
Defined.

(** On the page of App.js: clicking a cell, pressing Enter on it or pressing
    Space on it has exactly the effect of [handlePlay] on that cell in every
    reachable state; any other key does nothing. *)
Theorem classic_cell_activation_is_handlePlay s i :
  Classic.reachable s → 0 ≤ i < 9 →
  classicCellEvent i Click s = Classic.handlePlay i s
  ∧ classicCellEvent i (KeyDown "Enter") s = Classic.handlePlay i s
  ∧ classicCellEvent i (KeyDown " ") s = Classic.handlePlay i s
  ∧ ∀ key, key ≠ "Enter" → key ≠ " " →
           classicCellEvent i (KeyDown key) s = Some s.
Proof.
  intros Hr Hi.
  destruct (Classic_reachable_renders s Hr) as (squares & Hsq & Hb).
  unfold classicCellEvent. rewrite Hsq. simpl.
  pose proof (disabled_iff_ignored squares i Hb Hi) as Hd.
  destruct (truthy (aget squares i) || gameOver squares) eqn:E.
  - assert (Classic.handlePlay i s = Some s) as ->.
    { apply (Classic_handlePlay_ignored i s squares Hsq). by apply Hd. }
    repeat split; done.
  - split; [done|]. split; [done|]. split; [done|].
    intros key H1 H2. by rewrite (activates_other key H1 H2).
Qed.

Lemma classic_cell_activation_is_handlePlay_witness :
  Classic.handlePlay 2 afterFivePlays ≠ Some afterFivePlays
  ∧ classicCellEvent 2 Click afterFivePlays
    = Classic.handlePlay 2 afterFivePlays
  ∧ classicCellEvent 2 (KeyDown "Enter") afterFivePlays
    = Classic.handlePlay 2 afterFivePlays
  ∧ classicCellEvent 2 (KeyDown " ") afterFivePlays
    = Classic.handlePlay 2 afterFivePlays
  ∧ ∀ key, key ≠ "Enter" → key ≠ " " →
           classicCellEvent 2 (KeyDown key) afterFivePlays
           = Some afterFivePlays.
Proof.
  split; [vm_compute; discriminate|].
  apply (classic_cell_activation_is_handlePlay afterFivePlays 2).
  - apply (Classic_run_reachable fivePlays Classic.initial).
    + repeat constructor; simpl; lia.
    + vm_compute. reflexivity.
    + apply Classic.reach_initial.
  - lia.
Defined.

Lemma cellLabel_distinct i j v w :
  0 ≤ i < 9 → 0 ≤ j < 9 → i ≠ j → cellLabel i v ≠ cellLabel j w.
Proof.
  intros Hi Hj Hne H. nine_cells i; nine_cells j; try done;
    destruct v as [| |[|]], w as [| |[|]]; vm_compute in H; discriminate.
Qed.

(** The [n]-th cell the board renders is the cell of index [n], holding
    [squares[n]]. *)
Lemma board_lookup squares n c :
  board squares !! n = Some c ↔
  (n < 9)%nat
  ∧ c = renderCell squares (line (calculateWinner squares))
                   (gameOver squares) (Z.of_nat n).
Proof.
  unfold board, boardCells. rewrite list_lookup_fmap. split.
  - intros H. destruct (seqZ 0 9 !! n) as [i|] eqn:E; [|done].
    apply lookup_seqZ in E as [-> E]. injection H as <-.
    split; [lia|]. by rewrite Z.add_0_l.
  - intros [Hn ->]. rewrite lookup_seqZ_lt by lia. by rewrite Z.add_0_l.
Qed.

(** The accessible labels of the board: the [n]-th cell rendered carries the
    index [n] and the value [squares[n]], and its label is "Cell" with its
    number counted from 1, followed by its mark if it has one; so no two
    cells of a board carry the same label, whatever they hold. *)
Theorem cell_labels_distinct squares n c :
  board squares !! n = Some c →
  cellIndex c = Z.of_nat n
  ∧ cellValue c = aget squares (Z.of_nat n)
  ∧ (∃ name,
       [ "Cell 1"; "Cell 2"; "Cell 3"; "Cell 4"; "Cell 5"; "Cell 6";
         "Cell 7"; "Cell 8"; "Cell 9" ] !! n = Some name
       ∧ cellAriaLabel c
         = name +:+ match cellValue c with
                    | Str X => ", X"
                    | Str O => ", O"
                    | Null | Undefined => ""
                    end)
  ∧ ∀ m d, board squares !! m = Some d → n ≠ m →
           cellAriaLabel c ≠ cellAriaLabel d.
Proof.
  intros Hc. apply board_lookup in Hc as [Hn ->]. unfold cellAriaLabel.
  simpl. split; [done|]. split; [done|]. split.
  - generalize (aget squares (Z.of_nat n)). intros v.
    do 9 (destruct n as [|n];
          [eexists; split; [reflexivity|]; by destruct v as [| |[|]]|]).
    lia.
  - intros m d Hd Hne. apply board_lookup in Hd as [Hm ->]. simpl.
    apply cellLabel_distinct; lia.
Qed.

Lemma cell_labels_distinct_witness :
  cellIndex (MkCell 4 (Str O) false true) = Z.of_nat 4
  ∧ cellValue (MkCell 4 (Str O) false true) = aget drawnBoard (Z.of_nat 4)
  ∧ (∃ name,
       [ "Cell 1"; "Cell 2"; "Cell 3"; "Cell 4"; "Cell 5"; "Cell 6";
         "Cell 7"; "Cell 8"; "Cell 9" ] !! 4%nat = Some name
       ∧ cellAriaLabel (MkCell 4 (Str O) false true)
         = name +:+ match cellValue (MkCell 4 (Str O) false true) with
                    | Str X => ", X"
                    | Str O => ", O"
                    | Null | Undefined => ""
                    end)
  ∧ ∀ m d, board drawnBoard !! m = Some d → 4%nat ≠ m →
           cellAriaLabel (MkCell 4 (Str O) false true) ≠ cellAriaLabel d.
Proof.
  apply (cell_labels_distinct drawnBoard 4 (MkCell 4 (Str O) false true)).
  vm_compute. reflexivity.
Defined.

End CellFacts.

(** ** How a game runs: length, balance, and the end *)

Section GameFacts.
Import Engine Guard Hist View Scenario.

#[local] Arguments aget : simpl never.
#[local] Arguments Nat.modulo : simpl never.

Lemma winnerOnlyLast_play h st squares next :
  h !! st = Some squares → winner (calculateWinner squares) = Null →
  winnerOnlyLast h → winnerOnlyLast (take (st + 1) h ++ [next]).
Proof.
  intros Hsq Hw Hh k b. pose proof (lookup_lt_Some _ _ _ Hsq) as Hst.
  rewrite lookup_truncated by done.
  rewrite length_app, length_take_le by lia. simpl.
  intros Hk Hlen. rewrite decide_True in Hk by lia.
  destruct (decide (k = st)) as [->|Hne].
  - rewrite Hsq in Hk. by injection Hk as <-.
  - apply (Hh k b Hk). lia.
Qed.

Lemma handle_winnerOnlyLast a s s' :
  Nav.handle a s = Some s' →
  winnerOnlyLast (Nav.history s) → winnerOnlyLast (Nav.history s').
Proof.
  intros Hh HI. destruct a as [i| | | |k]; simpl in Hh.
  - apply handlePlay_cases in Hh as (squares & Hsq & [[_ ->] | [Hg ->]]);
      [done|]. simpl. apply (winnerOnlyLast_play _ _ squares); [done| |done].
    apply ignoredBy_None in Hg as [_ Hw].
    destruct (winner_Null_or_mark squares) as [E | [m E]]; [done|].
    by rewrite E in Hw.
  - unfold Nav.handleReset, Nav.rendered in Hh.
    destruct (Nav.currentSquares s); [|done]. injection Hh as <-.
    intros k b _ Hlen. simpl in Hlen. lia.
  - unfold Nav.handleUndo, Nav.rendered in Hh.
    destruct (Nav.currentSquares s); [|done]. simpl in Hh.
    by destruct (0 <? Nav.step s)%nat; injection Hh as <-.
  - unfold Nav.handleRedo, Nav.rendered in Hh.
    destruct (Nav.currentSquares s); [|done]. simpl in Hh.
    by destruct (Nav.step s <? length (Nav.history s) - 1)%nat;
      injection Hh as <-.
  - unfold Nav.jumpTo, Nav.rendered in Hh.
    destruct (Nav.currentSquares s); [|done]. simpl in Hh.
    by destruct ((0 <=? k) && (k <? Z.of_nat (length (Nav.history s))));
      injection Hh as <-.
Qed.

Lemma reachable_winnerOnlyLast s :
  Nav.reachable s → winnerOnlyLast (Nav.history s).
Proof.
  induction 1 as [|s a s' _ IH _ Hh].
  - intros k b _ Hlen. simpl in Hlen. lia.
  - by apply (handle_winnerOnlyLast a s s').
Qed.

(** Once a line is complete nothing is ever recorded behind it: in every
    reachable state, each snapshot that has a successor in the history shows
    no winner. *)
Theorem no_snapshot_after_win s k b :
  Nav.reachable s → Nav.history s !! k = Some b →
  (S k < length (Nav.history s))%nat →
  winner (calculateWinner b) = Null ∧ isDraw b = false.
Proof.
  intros Hr Hk Hlen. split.
  - by apply (reachable_winnerOnlyLast s Hr k b).
  - pose proof (reachable_Inv s Hr) as HI.
    pose proof (Inv_count _ _ HI k b Hk) as Hc.
    destruct (lookup_lt_is_Some_2 (Nav.history s) (length (Nav.history s) - 1))
      as [bl Hbl]; [lia|].
    pose proof (Inv_count _ _ HI _ _ Hbl) as Hcl.
    pose proof (inv_board _ _ HI _ _ Hbl) as (Hlen9 & _).
    pose proof (filter_truthy_le (elems bl)) as Hle.
    unfold countTruthy in Hcl. unfold isDraw, movesPlayed.
    rewrite Hc. rewrite (bool_decide_eq_false_2 (k = 9%nat)) by lia.
    apply andb_false_r.
Qed.

Lemma no_snapshot_after_win_witness :
  winner (calculateWinner boardX0) = Null ∧ isDraw boardX0 = false.
Proof.
  apply (no_snapshot_after_win travelled 1 boardX0).
  - apply (run_reachable travelMoves Nav.initial).
    + repeat constructor; simpl; lia.
    + vm_compute. reflexivity.
    + apply Nav.reach_initial.
  - reflexivity.
  - simpl. lia.
Defined.

(** A game has at most nine plays: the cursor equals the number of marks on
    the current board, never passes 9, and the history never holds more than
    ten snapshots. *)
Theorem game_has_at_most_nine_plays s squares :
  Nav.reachable s → Nav.currentSquares s = Some squares →
  movesPlayed squares = Nav.step s
  ∧ (Nav.step s ≤ 9)%nat
  ∧ (length (Nav.history s) ≤ 10)%nat.
Proof.
  intros Hr Hsq. pose proof (reachable_Inv s Hr) as HI.
  pose proof (inv_cursor _ _ HI) as Hcur.
  destruct (lookup_lt_is_Some_2 (Nav.history s) (length (Nav.history s) - 1))
    as [bl Hbl]; [lia|].
  pose proof (Inv_count _ _ HI _ _ Hbl) as Hcl.
  pose proof (inv_board _ _ HI _ _ Hbl) as (Hlen9 & _).
  pose proof (filter_truthy_le (elems bl)) as Hle.
  unfold countTruthy in Hcl.
  split; [exact (Inv_count _ _ HI _ _ Hsq)|]. lia.
Qed.

Lemma game_has_at_most_nine_plays_witness :
  movesPlayed boardX0 = Nav.step undone
  ∧ (Nav.step undone ≤ 9)%nat
  ∧ (length (Nav.history undone) ≤ 10)%nat.
Proof.
  apply (game_has_at_most_nine_plays undone boardX0).
  - apply (run_reachable [Nav.Play 0; Nav.Play 1; Nav.Undo] Nav.initial).
    + repeat constructor; simpl; lia.
    + vm_compute. reflexivity.
    + apply Nav.reach_initial.
  - reflexivity.
Defined.

(** When the game is over: a draw is exactly a ninth snapshot without a
    winner, and [gameOver] holds exactly when there is a winner or the cursor
    is at 9; until then the status is a turn. *)
Theorem game_over_iff_winner_or_ninth_play s squares :
  Nav.reachable s → Nav.currentSquares s = Some squares →
  (isDraw squares = true ↔
     winner (calculateWinner squares) = Null ∧ Nav.step s = 9%nat)
  ∧ (gameOver squares = true ↔
       winner (calculateWinner squares) ≠ Null ∨ Nav.step s = 9%nat)
  ∧ (gameOver squares = false ↔
       Nav.currentStatus s
       = Some (InProgress (playerOf (Nav.xIsNext s)))).
Proof.
  intros Hr Hsq. pose proof (reachable_Inv s Hr) as HI.
  pose proof (Inv_count _ _ HI _ _ Hsq) as Hc.
  unfold Nav.currentStatus, gameOver, status, isDraw, movesPlayed.
  rewrite Hsq. simpl. rewrite !Hc.
  destruct (winner_Null_or_mark squares) as [-> | [m ->]]; simpl.
  - destruct (decide (Nav.step s = 9%nat)) as [E|E].
    + rewrite bool_decide_eq_true_2 by done.
      split; [|split]; split; try done; eauto.
    + rewrite bool_decide_eq_false_2 by done.
      split; [|split]; split; try done.
      * by intros [_ ?].
      * intros [?|?]; done.
  - split; [|split]; split; try done.
    + by intros [? _].
    + intros _. by left.
Qed.

Lemma game_over_iff_winner_or_ninth_play_witness :
  (isDraw boardX0 = true ↔
     winner (calculateWinner boardX0) = Null ∧ Nav.step undone = 9%nat)
  ∧ (gameOver boardX0 = true ↔
       winner (calculateWinner boardX0) ≠ Null ∨ Nav.step undone = 9%nat)
  ∧ (gameOver boardX0 = false ↔
       Nav.currentStatus undone
       = Some (InProgress (playerOf (Nav.xIsNext undone)))).
Proof.
  apply (game_over_iff_winner_or_ninth_play undone boardX0).
  - apply (run_reachable [Nav.Play 0; Nav.Play 1; Nav.Undo] Nav.initial).
    + repeat constructor; simpl; lia.
    + vm_compute. reflexivity.
    + apply Nav.reach_initial.
  - reflexivity.
Defined.

End GameFacts.

(** ** Who wins, and how many marks each player has *)

Section LastMoveFacts.
Import Engine Guard Hist View Scenario.

#[local] Arguments aget : simpl never.
#[local] Arguments lineTest : simpl never.
#[local] Arguments Nat.modulo : simpl never.

Lemma aget_placed_other b b' j m a :
  isBoard b → isBoard b' → placed b b' j m → 0 ≤ a < 9 → Z.to_nat a ≠ j →
  aget b' a = aget b a.
Proof.
  intros Hb Hb' (_ & _ & _ & Hrest) Ha Hne.
  destruct (board_cell b a Hb Ha) as (v & Hv & <- & _).
  destruct (board_cell b' a Hb' Ha) as (v' & Hv' & <- & _).
  rewrite (Hrest _ Hne), Hv in Hv'. by injection Hv' as <-.
Qed.

Lemma aget_placed_same b b' j m a :
  placed b b' j m → 0 ≤ a → Z.to_nat a = j → aget b' a = Str m.
Proof.
  intros (Hj & _ & Hmark & _) Ha <-. apply aget_lookup in Hmark; [|lia].
  by rewrite Z2Nat.id in Hmark by lia.
Qed.

Lemma markAt_succ n : markAt (S n) ≠ markAt n.
Proof.
  unfold markAt. rewrite Nat.even_succ, <- Nat.negb_even.
  by destruct (Nat.even n).
Qed.

(** A winner is always the player who moved last: when the current board
    shows a winner, the cursor is on the last snapshot of the history, at
    least one move has been made, the winner is the mark placed by that last
    move, and it is not the mark whose turn the parity of [step] announces. *)
Theorem winner_moved_last s squares m :
  Nav.reachable s → Nav.currentSquares s = Some squares →
  winner (calculateWinner squares) = Str m →
  (0 < Nav.step s)%nat
  ∧ S (Nav.step s) = length (Nav.history s)
  ∧ m = markAt (Nav.step s - 1)
  ∧ m ≠ playerOf (Nav.xIsNext s).
Proof.
  intros Hr Hsq Hw. pose proof (reachable_Inv s Hr) as HI.
  pose proof (reachable_winnerOnlyLast s Hr) as HL.
  pose proof (inv_cursor _ _ HI) as Hcur.
  assert (S (Nav.step s) = length (Nav.history s)) as Hlast.
  { destruct (decide (S (Nav.step s) < length (Nav.history s))%nat) as [Hlt|];
      [|lia]. rewrite (HL _ _ Hsq Hlt) in Hw. done. }
  assert (0 < Nav.step s)%nat as Hpos.
  { destruct (Nav.step s) eqn:E; [|lia]. unfold Nav.currentSquares in Hsq.
    rewrite E, (inv_first _ _ HI) in Hsq. injection Hsq as <-.
    vm_compute in Hw. done. }
  destruct (lookup_lt_is_Some_2 (Nav.history s) (Nav.step s - 1))
    as [b0 Hb0]; [lia|].
  assert (winner (calculateWinner b0) = Null) as Hw0
    by (apply (HL _ _ Hb0); lia).
  destruct (inv_moves _ _ HI (Nav.step s - 1)%nat b0 squares Hb0) as [j Hp].
  { by replace (S (Nav.step s - 1)) with (Nav.step s) by lia. }
  pose proof (inv_board _ _ HI _ _ Hb0) as Hbd0.
  pose proof (inv_board _ _ HI _ _ Hsq) as Hbd.
  assert (m = markAt (Nav.step s - 1)) as Hm.
  { assert (truthy (winner (calculateWinner squares)) = true) as Ht
      by by rewrite Hw.
    apply winner_truthy in Ht as ([[a b] c] & m' & Hin & (Ha & Hb & Hc) & E).
    simpl in Ha, Hb, Hc. rewrite E in Hw. injection Hw as ->.
    destruct (lines_on_board a b c Hin) as (Ra & Rb & Rc).
    destruct (decide (Z.to_nat a = j)) as [Ea|Na].
    { rewrite (aget_placed_same b0 squares j _ a Hp) in Ha by (lia || done).
      by injection Ha as <-. }
    destruct (decide (Z.to_nat b = j)) as [Eb|Nb].
    { rewrite (aget_placed_same b0 squares j _ b Hp) in Hb by (lia || done).
      by injection Hb as <-. }
    destruct (decide (Z.to_nat c = j)) as [Ec|Nc].
    { rewrite (aget_placed_same b0 squares j _ c Hp) in Hc by (lia || done).
      by injection Hc as <-. }
    exfalso.
    rewrite (aget_placed_other b0 squares j _ a) in Ha by done.
    rewrite (aget_placed_other b0 squares j _ b) in Hb by done.
    rewrite (aget_placed_other b0 squares j _ c) in Hc by done.
    assert (truthy (winner (calculateWinner b0)) = true) as Ht0.
    { apply (scan_some b0 lines (a, b, c) Hin). apply lineTest_three.
      exists m. by repeat split. }
    by rewrite Hw0 in Ht0. }
  split; [done|]. split; [done|]. split; [done|].
  unfold Nav.xIsNext. rewrite playerOf_parity, Hm.
  replace (Nav.step s) with (S (Nav.step s - 1)) at 2 by lia.
  intros E. by apply (markAt_succ (Nav.step s - 1)).
Qed.

Lemma winner_moved_last_witness :
  (0 < Nav.step navAfterWin)%nat
  ∧ S (Nav.step navAfterWin) = length (Nav.history navAfterWin)
  ∧ X = markAt (Nav.step navAfterWin - 1)
  ∧ X ≠ playerOf (Nav.xIsNext navAfterWin).
Proof.
  apply (winner_moved_last navAfterWin wonBoard X).
  - apply (run_reachable (navPlay [0; 3; 4; 1; 8]) Nav.initial).
    + repeat constructor; simpl; lia.
    + vm_compute. reflexivity.
    + apply Nav.reach_initial.
  - reflexivity.
  - reflexivity.
Defined.

Lemma countMark_insert (l : list value) j m m' :
  l !! j = Some Null →
  length (filter (λ v, v = Str m') (<[j := Str m]> l))
  = (length (filter (λ v, v = Str m') l)
     + if decide (m = m') then 1 else 0)%nat.
Proof.
  revert j. induction l as [|v l IH]; intros j Hj; [done|].
  destruct j as [|j]; simpl in Hj.
  - injection Hj as ->.
    change (<[0%nat := Str m]> (Null :: l)) with (Str m :: l).
    rewrite (filter_cons_False _ Null) by done.
    case_decide as E.
    + subst. rewrite filter_cons_True by done. simpl. lia.
    + rewrite filter_cons_False by congruence. lia.
  - change (<[S j := Str m]> (v :: l)) with (v :: <[j := Str m]> l).
    rewrite !filter_cons.
    destruct (decide (v = Str m')); cbn [length]; rewrite (IH j Hj); lia.
Qed.

(** The marks stay balanced: the [k]-th snapshot holds [k] marks, and X has
    as many as O when [k] is even and one more when it is odd. *)
Theorem marks_balanced s k b :
  Nav.reachable s → Nav.history s !! k = Some b →
  (countMark X b + countMark O b = k)%nat
  ∧ countMark X b = (countMark O b + if Nat.even k then 0 else 1)%nat.
Proof.
  intros Hr. pose proof (reachable_Inv s Hr) as HI. revert b.
  induction k as [|k IH]; intros b Hk.
  - rewrite (inv_first _ _ HI) in Hk. by injection Hk as <-.
  - destruct (lookup_lt_is_Some_2 (Nav.history s) k) as [b0 Hb0].
    { apply lookup_lt_Some in Hk. lia. }
    destruct (IH b0 Hb0) as [Hsum Hbal].
    destruct (inv_moves _ _ HI k b0 b Hb0 Hk) as [j Hp].
    pose proof (inv_board _ _ HI _ _ Hb0) as Hbd0.
    pose proof (inv_board _ _ HI _ _ Hk) as Hbd.
    pose proof (placed_elems b0 b j _ Hbd0 Hbd Hp) as He.
    destruct Hp as (_ & Hnull & _).
    unfold countMark in *. rewrite He.
    rewrite !(countMark_insert _ j _ _ Hnull).
    rewrite Nat.even_succ, <- Nat.negb_even. unfold markAt.
    destruct (Nat.even k); simpl; repeat case_decide; try done; lia.
Qed.

Lemma marks_balanced_witness :
  (countMark X fivePlaysBoard + countMark O fivePlaysBoard = 5)%nat
  ∧ countMark X fivePlaysBoard
    = (countMark O fivePlaysBoard + if Nat.even 5 then 0 else 1)%nat.
Proof.
  apply (marks_balanced navAfterFivePlays 5 fivePlaysBoard).
  - apply (run_reachable (navPlay [0; 4; 1; 3; 8]) Nav.initial).
    + repeat constructor; simpl; lia.
    + vm_compute. reflexivity.
    + apply Nav.reach_initial.
  - reflexivity.
Defined.

End LastMoveFacts.

(** ** Moving through the history *)

Section NavigationFacts.
Import Engine Guard Hist View Scenario.

#[local] Arguments aget : simpl never.
#[local] Arguments Nat.modulo : simpl never.

(** Undo and redo are [jumpTo] on the neighbouring index, in every state:
    also at either end of the history, where all of them do nothing. *)
Theorem undo_redo_are_jumps s :
  Nav.handleUndo s = Nav.jumpTo (Z.of_nat (Nav.step s) - 1) s
  ∧ Nav.handleRedo s = Nav.jumpTo (Z.of_nat (Nav.step s) + 1) s.
Proof.
  unfold Nav.handleUndo, Nav.handleRedo, Nav.jumpTo, Nav.rendered.
  destruct (Nav.currentSquares s) as [squares|] eqn:Hsq; [|done]. simpl.
  apply lookup_lt_Some in Hsq. split; f_equal.
  - destruct (Nat.ltb_spec 0 (Nav.step s)),
      (Z.leb_spec 0 (Z.of_nat (Nav.step s) - 1)),
      (Z.ltb_spec (Z.of_nat (Nav.step s) - 1)
         (Z.of_nat (length (Nav.history s)))); simpl; try lia; try done.
    f_equal. lia.
  - destruct (Nat.ltb_spec (Nav.step s) (length (Nav.history s) - 1)),
      (Z.leb_spec 0 (Z.of_nat (Nav.step s) + 1)),
      (Z.ltb_spec (Z.of_nat (Nav.step s) + 1)
         (Z.of_nat (length (Nav.history s)))); simpl; try lia; try done.
    f_equal. lia.
Qed.

(** [jumpTo] checks its bounds: outside [0 .. history.length) it does nothing;
    inside it puts the cursor on the index, leaves the history as it is, and
    the board shown is that snapshot. *)
Theorem jumpTo_in_and_out_of_range s squares k :
  Nav.currentSquares s = Some squares →
  (¬ (0 ≤ k < Z.of_nat (length (Nav.history s))) → Nav.jumpTo k s = Some s)
  ∧ (0 ≤ k < Z.of_nat (length (Nav.history s)) →
     ∃ s', Nav.jumpTo k s = Some s'
           ∧ Nav.history s' = Nav.history s
           ∧ Z.of_nat (Nav.step s') = k
           ∧ Nav.currentSquares s' = Nav.history s !! Z.to_nat k
           ∧ is_Some (Nav.currentSquares s')).
Proof.
  intros Hsq. unfold Nav.jumpTo, Nav.rendered. rewrite Hsq. simpl.
  split; intros Hk;
    destruct (Z.leb_spec 0 k),
      (Z.ltb_spec k (Z.of_nat (length (Nav.history s))));
    simpl; try done; try (exfalso; lia).
  eexists. split; [done|]. simpl. split; [done|].
  split; [lia|]. split; [done|]. apply lookup_lt_is_Some_2. simpl. lia.
Qed.

Lemma jumpTo_in_and_out_of_range_witness :
  (¬ (0 ≤ 3 < Z.of_nat (length (Nav.history undone))) →
   Nav.jumpTo 3 undone = Some undone)
  ∧ (0 ≤ 3 < Z.of_nat (length (Nav.history undone)) →
     ∃ s', Nav.jumpTo 3 undone = Some s'
           ∧ Nav.history s' = Nav.history undone
           ∧ Z.of_nat (Nav.step s') = 3
           ∧ Nav.currentSquares s' = Nav.history undone !! Z.to_nat 3
           ∧ is_Some (Nav.currentSquares s')).
Proof.
  apply (jumpTo_in_and_out_of_range undone boardX0 3). reflexivity.
Defined.

(** Undo and redo undo each other: away from the start, undo followed by
    redo gives back the very same state; away from the end, so does redo
    followed by undo. *)
Theorem undo_redo_round_trip s squares :
  Nav.currentSquares s = Some squares →
  ((0 < Nav.step s)%nat → Nav.handleUndo s ≫= Nav.handleRedo = Some s)
  ∧ ((S (Nav.step s) < length (Nav.history s))%nat →
     Nav.handleRedo s ≫= Nav.handleUndo = Some s).
Proof.
  intros Hsq. pose proof (lookup_lt_Some _ _ _ Hsq) as Hlt.
  unfold Nav.handleUndo, Nav.handleRedo, Nav.rendered. rewrite Hsq. simpl.
  destruct s as [h st]. simpl in *. split; intros Hb.
  - destruct (Nat.ltb_spec 0 st); [|lia]. simpl.
    unfold Nav.currentSquares. simpl.
    destruct (lookup_lt_is_Some_2 h (st - 1)) as [b ->]; [lia|]. simpl.
    destruct (Nat.ltb_spec (st - 1) (length h - 1)); [|lia].
    do 2 f_equal. lia.
  - destruct (Nat.ltb_spec st (length h - 1)); [|lia]. simpl.
    unfold Nav.currentSquares. simpl.
    destruct (lookup_lt_is_Some_2 h (st + 1)) as [b ->]; [lia|]. simpl.
    destruct (Nat.ltb_spec 0 (st + 1)); [|lia].
    do 2 f_equal. lia.
Qed.

Lemma undo_redo_round_trip_witness :
  ((0 < Nav.step undone)%nat →
   Nav.handleUndo undone ≫= Nav.handleRedo = Some undone)
  ∧ ((S (Nav.step undone) < length (Nav.history undone))%nat →
     Nav.handleRedo undone ≫= Nav.handleUndo = Some undone).
Proof. apply (undo_redo_round_trip undone boardX0). reflexivity. Defined.

(** The Undo and Redo buttons are disabled exactly when their handler would
    leave the state as it is. *)
Theorem buttons_disabled_iff_nothing_to_do s squares :
  Nav.currentSquares s = Some squares →
  (undoDisabled s = true ↔ Nav.handleUndo s = Some s)
  ∧ (redoDisabled s = true ↔ Nav.handleRedo s = Some s).
Proof.
  intros Hsq. pose proof (lookup_lt_Some _ _ _ Hsq) as Hlt.
  unfold undoDisabled, redoDisabled, Nav.handleUndo, Nav.handleRedo,
    Nav.rendered. rewrite Hsq. simpl. destruct s as [h st]. simpl in *.
  split.
  - destruct (Nat.eqb_spec st 0), (Nat.ltb_spec 0 st); try lia;
      split; try done. intros E. injection E as E. lia.
  - destruct (Nat.leb_spec (length h - 1) st), (Nat.ltb_spec st (length h - 1));
      try lia; split; try done. intros E. injection E as E. lia.
Qed.

Lemma buttons_disabled_iff_nothing_to_do_witness :
  (undoDisabled Nav.initial = true
   ↔ Nav.handleUndo Nav.initial = Some Nav.initial)
  ∧ (redoDisabled Nav.initial = true
     ↔ Nav.handleRedo Nav.initial = Some Nav.initial).
Proof.
  apply (buttons_disabled_iff_nothing_to_do Nav.initial emptyBoard).
  reflexivity.
Defined.

End NavigationFacts.

(** ** The move list, New Game, and the repository's navigation test *)

Section PageFacts.
Import Engine Guard Hist View Scenario.

#[local] Arguments aget : simpl never.
#[local] Arguments Nat.modulo : simpl never.

(** Every entry of the move list lands where it says: its [onClick] jumps to
    its own index, which is always in range, and the board then shown is the
    snapshot with exactly that many marks; the entry for the current step,
    and only that one, is marked current; the first entry, and only that one,
    reads "Go to start". *)
Theorem move_list_entries_land s n btn :
  Nav.reachable s → moveList s !! n = Some btn →
  moveTarget btn = Z.of_nat n
  ∧ (moveCurrent btn = true ↔ n = Nav.step s)
  ∧ (moveLabel btn = "Go to start" ↔ n = 0%nat)
  ∧ is_Some (moveList s !! Nav.step s)
  ∧ ∃ s' b, Nav.jumpTo (moveTarget btn) s = Some s'
            ∧ Nav.step s' = n
            ∧ Nav.history s' = Nav.history s
            ∧ Nav.currentSquares s' = Some b
            ∧ Nav.history s !! n = Some b
            ∧ movesPlayed b = n.
Proof.
  intros Hr Hbtn. pose proof (reachable_Inv s Hr) as HI.
  destruct (reachable_renders s Hr) as (squares & Hsq & _).
  unfold moveList in *. rewrite list_lookup_imap in Hbtn.
  destruct (Nav.history s !! n) as [b|] eqn:Hb; [|done].
  injection Hbtn as <-. simpl.
  pose proof (lookup_lt_Some _ _ _ Hb) as Hn.
  split; [done|]. split; [apply Nat.eqb_eq|]. split; [|split].
  - destruct (Nat.eqb_spec n 0) as [->|Hne]; [done|].
    split; [|done]. intros E. simpl in E. discriminate.
  - rewrite list_lookup_imap.
    destruct (lookup_lt_is_Some_2 (Nav.history s) (Nav.step s)) as [b' ->];
      [apply (inv_cursor _ _ HI)|]. simpl. eauto.
  - unfold Nav.jumpTo, Nav.rendered. rewrite Hsq. simpl.
    destruct (Z.leb_spec 0 (Z.of_nat n)); [|lia].
    destruct (Z.ltb_spec (Z.of_nat n) (Z.of_nat (length (Nav.history s))));
      [|lia]. simpl.
    eexists _, b. split; [done|]. simpl. rewrite Nat2Z.id.
    split; [done|]. split; [done|]. split; [exact Hb|]. split; [done|].
    exact (Inv_count _ _ HI _ _ Hb).
Qed.

Lemma move_list_entries_land_witness :
  moveTarget (MkMove "Go to move #2" false 2) = Z.of_nat 2
  ∧ (moveCurrent (MkMove "Go to move #2" false 2) = true
     ↔ 2%nat = Nav.step undone)
  ∧ (moveLabel (MkMove "Go to move #2" false 2) = "Go to start" ↔ 2%nat = 0%nat)
  ∧ is_Some (moveList undone !! Nav.step undone)
  ∧ ∃ s' b, Nav.jumpTo (moveTarget (MkMove "Go to move #2" false 2)) undone
            = Some s'
            ∧ Nav.step s' = 2%nat
            ∧ Nav.history s' = Nav.history undone
            ∧ Nav.currentSquares s' = Some b
            ∧ Nav.history undone !! 2%nat = Some b
            ∧ movesPlayed b = 2%nat.
Proof.
  apply (move_list_entries_land undone 2 (MkMove "Go to move #2" false 2)).
  - apply (run_reachable (navPlay [0; 1] ++ [Nav.Undo]) Nav.initial).
    + repeat constructor; simpl; lia.
    + vm_compute. reflexivity.
    + apply Nav.reach_initial.
  - vm_compute. reflexivity.
Defined.

(** "Go to start" from any reachable state shows the empty board with X to
    move, and keeps the whole history for going forward again. *)
Theorem go_to_start_shows_empty_board s :
  Nav.reachable s →
  ∃ s', Nav.jumpTo 0 s = Some s'
        ∧ Nav.history s' = Nav.history s
        ∧ Nav.currentSquares s' = Some emptyBoard
        ∧ Nav.currentStatus s' = Some (InProgress X).
Proof.
  intros Hr. pose proof (reachable_Inv s Hr) as HI.
  destruct (reachable_renders s Hr) as (squares & Hsq & _).
  pose proof (inv_cursor _ _ HI) as Hcur.
  unfold Nav.jumpTo, Nav.rendered. rewrite Hsq. simpl.
  destruct (Z.ltb_spec 0 (Z.of_nat (length (Nav.history s)))); [|lia].
  eexists. split; [done|]. split; [done|].
  unfold Nav.currentStatus, Nav.currentSquares. simpl.
  change (Z.to_nat 0) with 0%nat. rewrite (inv_first _ _ HI). done.
Qed.

Lemma go_to_start_shows_empty_board_witness :
  ∃ s', Nav.jumpTo 0 travelled = Some s'
        ∧ Nav.history s' = Nav.history travelled
        ∧ Nav.currentSquares s' = Some emptyBoard
        ∧ Nav.currentStatus s' = Some (InProgress X).
Proof.
  apply (go_to_start_shows_empty_board travelled).
  apply (run_reachable travelMoves Nav.initial).
  - repeat constructor; simpl; lia.
  - vm_compute. reflexivity.
  - apply Nav.reach_initial.
Defined.

Lemma run_app acts acts' s :
  Nav.run (acts ++ acts') s = Nav.run acts s ≫= Nav.run acts'.
Proof.
  revert s. induction acts as [|a acts IH]; intros s; [done|]. simpl.
  destruct (Nav.handle a s) as [s1|]; [|done]. simpl. apply IH.
Qed.

(** The page never gets stuck: from a reachable state every sequence of the
    page's actions runs through (no render ever finds [history[step]]
    undefined), and New Game at the end of any of them gives the initial
    state back. *)
Theorem page_never_stuck_and_new_game_restarts s acts :
  Nav.reachable s → Forall Nav.wired acts →
  (∃ s', Nav.run acts s = Some s' ∧ Nav.reachable s')
  ∧ Nav.run (acts ++ [Nav.Reset]) s = Some Nav.initial.
Proof.
  intros Hr Hw.
  assert (∃ s', Nav.run acts s = Some s' ∧ Nav.reachable s') as Hrun.
  { revert s Hr. induction Hw as [|a acts Ha _ IH]; intros s Hr; [by eauto|].
    destruct (reachable_renders s Hr) as (squares & Hsq & _).
    assert (∃ s1, Nav.handle a s = Some s1) as [s1 H1].
    { destruct a; simpl;
        unfold Nav.handlePlay, Nav.handleReset, Nav.handleUndo,
          Nav.handleRedo, Nav.jumpTo, Nav.rendered; rewrite Hsq; simpl; eauto. }
    simpl. rewrite H1. simpl. apply IH. by apply (Nav.reach_step s a s1). }
  split; [exact Hrun|]. destruct Hrun as (s' & Hs' & Hr').
  rewrite run_app, Hs'. simpl.
  destruct (reachable_renders s' Hr') as (squares & Hsq & _).
  unfold Nav.handleReset, Nav.rendered. by rewrite Hsq.
Qed.

Lemma page_never_stuck_and_new_game_restarts_witness :
  (∃ s', Nav.run travelMoves Nav.initial = Some s' ∧ Nav.reachable s')
  ∧ Nav.run (travelMoves ++ [Nav.Reset]) Nav.initial = Some Nav.initial.
Proof.
  apply (page_never_stuck_and_new_game_restarts Nav.initial travelMoves).
  - apply Nav.reach_initial.
  - repeat constructor; simpl; lia.
Defined.

(** What the test 'supports move history navigation with undo/redo' checks
    on its one click holds for every accepted play: after the play Undo is
    enabled and brings back the status from before; Redo is then enabled and
    brings back exactly the state the play had produced. *)
Theorem play_undo_redo_replays_move s squares i :
  Nav.currentSquares s = Some squares → ignoredBy squares i = None →
  ∃ s1 s2,
    Nav.handlePlay i s = Some s1
    ∧ undoDisabled s1 = false
    ∧ Nav.handleUndo s1 = Some s2
    ∧ Nav.currentStatus s2 = Nav.currentStatus s
    ∧ redoDisabled s2 = false
    ∧ Nav.handleRedo s2 = Some s1.
Proof.
  intros Hsq Hg. pose proof (lookup_lt_Some _ _ _ Hsq) as Hlt.
  set (h1 := take (Nav.step s + 1) (Nav.history s)
             ++ [aset (slice squares) i (Str (playerOf (Nav.xIsNext s)))]).
  assert (length h1 = (Nav.step s + 2)%nat) as Hlen.
  { unfold h1. rewrite length_app, length_take_le by lia. simpl. lia. }
  assert (h1 !! Nav.step s = Some squares) as Hold.
  { unfold h1. rewrite lookup_truncated by done.
    by rewrite decide_True by lia. }
  assert (is_Some (h1 !! (Nav.step s + 1)%nat)) as [next Hnew]
    by (apply lookup_lt_is_Some_2; lia).
  exists (Nav.MkState h1 (Nav.step s + 1)), (Nav.MkState h1 (Nav.step s)).
  split.
  { unfold Nav.handlePlay, Nav.rendered. rewrite Hsq. simpl. by rewrite Hg. }
  unfold undoDisabled, redoDisabled, Nav.handleUndo, Nav.handleRedo,
    Nav.rendered, Nav.currentStatus, Nav.currentSquares. simpl.
  rewrite Hnew, Hold, Hlen. simpl.
  unfold Nav.currentSquares in Hsq. rewrite Hsq. simpl.
  destruct (Nat.eqb_spec (Nav.step s + 1) 0); [lia|].
  destruct (Nat.ltb_spec 0 (Nav.step s + 1)); [|lia].
  destruct (Nat.leb_spec (Nav.step s + 2 - 1) (Nav.step s)); [lia|].
  destruct (Nat.ltb_spec (Nav.step s) (Nav.step s + 2 - 1)); [|lia].
  replace (Nav.step s + 1 - 1)%nat with (Nav.step s) by lia.
  done.
Qed.

Lemma play_undo_redo_replays_move_witness :
  ∃ s1 s2,
    Nav.handlePlay 0 Nav.initial = Some s1
    ∧ undoDisabled s1 = false
    ∧ Nav.handleUndo s1 = Some s2
    ∧ Nav.currentStatus s2 = Nav.currentStatus Nav.initial
    ∧ redoDisabled s2 = false
    ∧ Nav.handleRedo s2 = Some s1.
Proof.
  apply (play_undo_redo_replays_move Nav.initial emptyBoard 0).
  - reflexivity.
  - vm_compute. reflexivity.
Defined.

End PageFacts.

(** ** App.js and the revision with history navigation, side by side *)

Section RevisionFacts.
Import Engine Guard Hist View Scenario.

#[local] Arguments aget : simpl never.
#[local] Arguments Nat.modulo : simpl never.

(** In App.js a won position is final: with a winner on the board every play
    and every undo leaves the state as it is, so no sequence of them leads
    anywhere; only New Game does. *)
Theorem classic_win_is_final s squares acts :
  Classic.currentSquares s = Some squares →
  winner (calculateWinner squares) ≠ Null →
  Forall (λ a, a ≠ Classic.Reset) acts →
  Classic.run acts s = Some s
  ∧ Classic.handleReset s = Some Classic.initial.
Proof.
  intros Hsq Hw Hacts. apply winner_not_Null in Hw. split.
  - induction Hacts as [|a acts Ha _ IH]; [done|]. simpl.
    assert (Classic.handle a s = Some s) as ->; [|exact IH].
    destruct a as [i| |]; simpl; [| done |].
    + apply (Classic_handlePlay_ignored i s squares Hsq).
      unfold ignoredBy. rewrite Hw. destruct (truthy (aget squares i)); eauto.
    + unfold Classic.handleUndo, Classic.rendered. rewrite Hsq. simpl.
      rewrite Hw. by rewrite andb_false_r.
  - unfold Classic.handleReset, Classic.rendered. by rewrite Hsq.
Qed.

Lemma classic_win_is_final_witness :
  Classic.run [Classic.Undo; Classic.Play 2; Classic.Play 0; Classic.Undo]
              afterWin = Some afterWin
  ∧ Classic.handleReset afterWin = Some Classic.initial.
Proof.
  apply (classic_win_is_final afterWin wonBoard).
  - reflexivity.
  - vm_compute. discriminate.
  - repeat constructor; discriminate.
Defined.

(** The two revisions agree wherever App.js can get: forgetting the stored
    flag gives a state the other revision reaches too, the flag equals
    [step % 2 === 0], both pages show the same status, and play and New Game
    do the same in both; undo differs only in that App.js ignores it on a
    won board. *)
Theorem classic_agrees_with_navigation s :
  Classic.reachable s →
  Nav.reachable (Classic.erase s)
  ∧ Classic.xIsNext s = (Classic.step s mod 2 =? 0)%nat
  ∧ Classic.currentStatus s = Nav.currentStatus (Classic.erase s)
  ∧ (∀ i, Classic.erase <$> Classic.handlePlay i s
          = Nav.handlePlay i (Classic.erase s))
  ∧ Classic.erase <$> Classic.handleReset s
    = Nav.handleReset (Classic.erase s)
  ∧ ∀ squares, Classic.currentSquares s = Some squares →
      Classic.erase <$> Classic.handleUndo s
      = if truthy (winner (calculateWinner squares))
        then Some (Classic.erase s)
        else Nav.handleUndo (Classic.erase s).
Proof.
  intros Hr. destruct (Classic_reachable_sim s Hr) as [Hnr Hsync].
  unfold Classic.inSync, Nav.xIsNext in Hsync. simpl in Hsync.
  split; [done|]. split; [done|].
  unfold Classic.currentStatus, Nav.currentStatus, Classic.handlePlay,
    Nav.handlePlay, Classic.handleReset, Nav.handleReset,
    Classic.handleUndo, Nav.handleUndo, Classic.rendered, Nav.rendered,
    Nav.currentSquares, Classic.currentSquares, Nav.xIsNext. simpl.
  destruct (Classic.history s !! Classic.step s) as [sq|] eqn:Hsq; simpl.
  - rewrite <- Hsync. split; [done|]. split; [|split; [done|]].
    + intros i. by destruct (ignoredBy sq i).
    + intros squares E. injection E as <-.
      destruct (0 <? Classic.step s)%nat,
        (truthy (winner (calculateWinner sq))); done.
  - repeat split; done.
Qed.

Lemma classic_agrees_with_navigation_witness :
  Nav.reachable (Classic.erase afterFivePlays)
  ∧ Classic.xIsNext afterFivePlays
    = (Classic.step afterFivePlays mod 2 =? 0)%nat
  ∧ Classic.currentStatus afterFivePlays
    = Nav.currentStatus (Classic.erase afterFivePlays)
  ∧ (∀ i, Classic.erase <$> Classic.handlePlay i afterFivePlays
          = Nav.handlePlay i (Classic.erase afterFivePlays))
  ∧ Classic.erase <$> Classic.handleReset afterFivePlays
    = Nav.handleReset (Classic.erase afterFivePlays)
  ∧ ∀ squares, Classic.currentSquares afterFivePlays = Some squares →
      Classic.erase <$> Classic.handleUndo afterFivePlays
      = if truthy (winner (calculateWinner squares))
        then Some (Classic.erase afterFivePlays)
        else Nav.handleUndo (Classic.erase afterFivePlays).
Proof.
  apply (classic_agrees_with_navigation afterFivePlays).
  apply (Classic_run_reachable fivePlays Classic.initial).
  - repeat constructor; simpl; lia.
  - vm_compute. reflexivity.
  - apply Classic.reach_initial.
Defined.

End RevisionFacts.
